(** * Battleship: targeting strategies, fleet model and attack resolution

    A shallow embedding of [battleship.py].  Python integers are [Z],
    coordinates are pairs of integers, [set] objects are [gset], the board
    dictionary is a [gmap], lists are lists in Python order (index 0 first).
    Exceptions are an explicit error result, and the process-wide [random]
    module is a tape of draws that is threaded through every call. *)

From stdpp Require Import gmap list strings pretty sorting.
From Stdlib Require Import Ascii.

Open Scope Z_scope.

(** ** Exceptions and results *)

Inductive exn : Type :=
  | IndexError      (* random.choice on an empty sequence *)
  | KeyError        (* dictionary lookup of a missing key *)
  | RecursionError. (* the recursion budget of the interpreter *)

Inductive result (A : Type) : Type :=
  | Ok (a : A)
  | Raise (e : exn).
Arguments Ok {A} a.
Arguments Raise {A} e.

Global Instance result_ret : MRet result := λ A a, Ok a.
Global Instance result_bind : MBind result := λ A B f m,
  match m with
  | Ok a => f a
  | Raise e => Raise e
  end.

(** ** Coordinates and the board *)

Abbreviation coord := (Z * Z)%type.

(** [range(n)] *)
Definition range (n : Z) : list Z := seqZ 0 n.

(** [[(r, c) for r in range(n) for c in range(n)]] *)
Definition board (n : Z) : list coord :=
  r ← range n; c ← range n; [(r, c)].

(** [[(r, c) for r in range(n) for c in range(n) if (r, c) not in shots]] *)
Definition unshot (n : Z) (shots : gset coord) : list coord :=
  filter (λ p, p ∉ shots) (board n).

(** [0 <= nr < n and 0 <= nc < n] *)
Definition in_bounds (n : Z) (p : coord) : Prop :=
  0 ≤ p.1 < n ∧ 0 ≤ p.2 < n.

Global Instance in_bounds_dec n p : Decision (in_bounds n p).
Proof. unfold in_bounds. apply _. Defined.

(** ** The source of randomness

    [random] is a module-level generator.  A generator state is a tape of
    raw draws and a cursor; [randbelow n] reads one draw and reduces it
    below [n], so that every tape is a legal run of the generator and every
    run of the generator is some tape. *)

Record Random : Type := mkRandom { tape : nat → nat; cursor : nat }.

Definition randbelow (n : nat) (g : Random) : nat * Random :=
  ((tape g (cursor g) `mod` n)%nat,
   {| tape := tape g; cursor := S (cursor g) |}).

(** [random.choice(seq)]: [seq[randbelow(len(seq))]], IndexError when
    [seq] is empty. *)
Definition choice {A} (seq : list A) (g : Random) : result (A * Random) :=
  match seq with
  | [] => Raise IndexError
  | _ =>
      let '(i, g') := randbelow (length seq) g in
      match seq !! i with
      | Some x => Ok (x, g')
      | None => Raise IndexError
      end
  end.

(** [x[i], x[j] = x[j], x[i]] on indices that are in range *)
Definition swap {A} (x : list A) (i j : nat) : list A :=
  match x !! i, x !! j with
  | Some a, Some b => <[j := a]> (<[i := b]> x)
  | _, _ => x
  end.

(** [random.shuffle(x)]:
    [for i in reversed(range(1, len(x))): j = randbelow(i + 1); swap i j].
    [shuffle_from k] runs the iterations [i = k, k - 1, ..., 1]. *)
Fixpoint shuffle_from {A} (k : nat) (x : list A) (g : Random)
  : list A * Random :=
  match k with
  | O => (x, g)
  | S k' =>
      let '(j, g') := randbelow (S k) g in
      shuffle_from k' (swap x k j) g'
  end.

Definition shuffle {A} (x : list A) (g : Random) : list A * Random :=
  shuffle_from (length x - 1)%nat x g.

(** ** Targeting strategies *)

(** The [while self.targets: coord = pop(); if coord not in self.shots: ...]
    loop, on the candidates in the order in which they are popped: the first
    candidate that was not shot yet together with the ones still queued, or
    [None] when every candidate was popped and discarded. *)
Fixpoint next_fresh (cands : list coord) (shots : gset coord)
  : option (coord * list coord) :=
  match cands with
  | [] => None
  | c :: rest =>
      if decide (c ∉ shots) then Some (c, rest) else next_fresh rest shots
  end.

Module RandomShooter.

Record t : Type := mk { grid_size : Z; shots : gset coord }.

Definition init (grid_size : Z) : t :=
  {| grid_size := grid_size; shots := ∅ |}.

Definition choose_target (self : t) (g : Random)
  : result (coord * t * Random) :=
  let choices := unshot (grid_size self) (shots self) in
  '(c, g') ← choice choices g;
  mret (c, {| grid_size := grid_size self; shots := {[c]} ∪ shots self |}, g').

(** inherited from [AIStrategy]: [pass] *)
Definition process_result (self : t) (c : coord) (hit : bool) : t := self.

End RandomShooter.

Module SeekAndDestroy.

Record t : Type :=
  mk { grid_size : Z; targets : list coord; shots : gset coord }.

Definition init (grid_size : Z) : t :=
  {| grid_size := grid_size; targets := []; shots := ∅ |}.

(** [targets.pop()] takes the last element, so the loop walks the list
    from its end: [reverse (targets self)] is the pop order. *)
Definition choose_target (self : t) (g : Random)
  : result (coord * t * Random) :=
  match next_fresh (reverse (targets self)) (shots self) with
  | Some (c, rest) =>
      Ok (c, {| grid_size := grid_size self;
                targets := reverse rest;
                shots := {[c]} ∪ shots self |}, g)
  | None =>
      let choices := unshot (grid_size self) (shots self) in
      '(c, g') ← choice choices g;
      mret (c, {| grid_size := grid_size self;
                  targets := [];
                  shots := {[c]} ∪ shots self |}, g')
  end.

Definition neighbors (c : coord) : list coord :=
  [(c.1 - 1, c.2); (c.1 + 1, c.2); (c.1, c.2 - 1); (c.1, c.2 + 1)].

Definition process_result (self : t) (c : coord) (hit : bool) (g : Random)
  : t * Random :=
  if hit then
    let valid := filter (in_bounds (grid_size self)) (neighbors c) in
    let '(valid', g') := shuffle valid g in
    ({| grid_size := grid_size self;
        targets := targets self ++ valid';
        shots := shots self |}, g')
  else (self, g).

End SeekAndDestroy.

Module StrategicGenius.

Record t : Type :=
  mk { grid_size : Z; hunt_mode : bool;
       shots : gset coord; targets : list coord }.

Definition init (grid_size : Z) : t :=
  {| grid_size := grid_size; hunt_mode := true; shots := ∅; targets := [] |}.

(** [[... if (r + c) % 2 == 0 and (r, c) not in self.shots]] *)
Definition checkerboard (n : Z) (shots : gset coord) : list coord :=
  filter (λ p, (p.1 + p.2) `mod` 2 = 0 ∧ p ∉ shots) (board n).

(** [choose_target] calls itself once the queue is drained; [fuel] bounds
    the depth of that recursion.  [targets.pop(0)] takes the first
    element, so the list itself is the pop order. *)
Fixpoint choose_target_rec (fuel : nat) (self : t) (g : Random)
  : result (coord * t * Random) :=
  match fuel with
  | O => Raise RecursionError
  | S fuel' =>
      if hunt_mode self then
        let choices := checkerboard (grid_size self) (shots self) in
        let choices :=
          match choices with
          | [] => unshot (grid_size self) (shots self)
          | _ => choices
          end in
        '(c, g') ← choice choices g;
        mret (c, {| grid_size := grid_size self;
                    hunt_mode := true;
                    shots := {[c]} ∪ shots self;
                    targets := targets self |}, g')
      else
        match next_fresh (targets self) (shots self) with
        | Some (c, rest) =>
            Ok (c, {| grid_size := grid_size self;
                      hunt_mode := false;
                      shots := {[c]} ∪ shots self;
                      targets := rest |}, g)
        | None =>
            choose_target_rec fuel'
              {| grid_size := grid_size self;
                 hunt_mode := true;
                 shots := shots self;
                 targets := [] |} g
        end
  end.

(** Two frames are all the recursion ever uses, see
    [choose_target_rec_fuel] below. *)
Definition choose_target (self : t) (g : Random)
  : result (coord * t * Random) :=
  choose_target_rec 2 self g.

(** [[(r, c+1), (r, c-1), (r+1, c), (r-1, c)]] *)
Definition cross (c : coord) : list coord :=
  [(c.1, c.2 + 1); (c.1, c.2 - 1); (c.1 + 1, c.2); (c.1 - 1, c.2)].

Definition process_result (self : t) (c : coord) (hit : bool) : t :=
  if hit then
    {| grid_size := grid_size self;
       hunt_mode := false;
       shots := shots self;
       targets :=
         targets self ++
         filter (λ p, in_bounds (grid_size self) p ∧ p ∉ shots self)
                (cross c) |}
  else self.

End StrategicGenius.

(** The strategy held by [Game.pc_ctrl]: one of the three classes, chosen by
    the difficulty typed in by the user. *)
Inductive difficulty : Type := easy | medium | hard.

Inductive strategy : Type :=
  | Easy (s : RandomShooter.t)
  | Medium (s : SeekAndDestroy.t)
  | Hard (s : StrategicGenius.t).

Definition new_strategy (d : difficulty) (grid_size : Z) : strategy :=
  match d with
  | easy => Easy (RandomShooter.init grid_size)
  | medium => Medium (SeekAndDestroy.init grid_size)
  | hard => Hard (StrategicGenius.init grid_size)
  end.

Definition grid_size (s : strategy) : Z :=
  match s with
  | Easy s => RandomShooter.grid_size s
  | Medium s => SeekAndDestroy.grid_size s
  | Hard s => StrategicGenius.grid_size s
  end.

Definition shots (s : strategy) : gset coord :=
  match s with
  | Easy s => RandomShooter.shots s
  | Medium s => SeekAndDestroy.shots s
  | Hard s => StrategicGenius.shots s
  end.

(** The candidates a strategy has queued ([RandomShooter] keeps none). *)
Definition targets (s : strategy) : list coord :=
  match s with
  | Easy _ => []
  | Medium s => SeekAndDestroy.targets s
  | Hard s => StrategicGenius.targets s
  end.

Definition choose_target (s : strategy) (g : Random)
  : result (coord * strategy * Random) :=
  match s with
  | Easy s =>
      '(c, s', g') ← RandomShooter.choose_target s g; mret (c, Easy s', g')
  | Medium s =>
      '(c, s', g') ← SeekAndDestroy.choose_target s g; mret (c, Medium s', g')
  | Hard s =>
      '(c, s', g') ← StrategicGenius.choose_target s g; mret (c, Hard s', g')
  end.

Definition process_result (s : strategy) (c : coord) (hit : bool) (g : Random)
  : strategy * Random :=
  match s with
  | Easy s => (Easy (RandomShooter.process_result s c hit), g)
  | Medium s =>
      let '(s', g') := SeekAndDestroy.process_result s c hit g in (Medium s', g')
  | Hard s => (Hard (StrategicGenius.process_result s c hit), g)
  end.

(** A session with one strategy instance: the calls an orchestrator makes,
    in order, and the coordinates the [choose_target] calls returned. *)
Inductive call : Type :=
  | Choose
  | Process (c : coord) (hit : bool).

Fixpoint run (s : strategy) (g : Random) (calls : list call)
  : result (list coord * strategy * Random) :=
  match calls with
  | [] => Ok ([], s, g)
  | Choose :: calls' =>
      '(c, s', g') ← choose_target s g;
      '(out, s'', g'') ← run s' g' calls';
      mret (c :: out, s'', g'')
  | Process c hit :: calls' =>
      let '(s', g') := process_result s c hit g in
      run s' g' calls'
  end.

Definition is_choose (k : call) : bool :=
  match k with Choose => true | Process _ _ => false end.

(** ** Fleet model *)

Module Ship.

Record t : Type :=
  mk { size : Z; positions : list coord; hits : gset coord }.

Definition init (size : Z) (positions : list coord) : t :=
  {| size := size; positions := positions; hits := ∅ |}.

Definition check_hit (self : t) (target : coord) : bool * t :=
  if decide (target ∈ positions self) then
    (true, {| size := size self;
              positions := positions self;
              hits := {[target]} ∪ hits self |})
  else (false, self).

(** [len(self.hits) == self.size] *)
Definition is_sunk (self : t) : bool :=
  bool_decide (Z.of_nat (base.size (hits self)) = size self).

End Ship.

Module Grid.

(** Cell states are the one-character strings [' '], ['X'] and ['O']. *)
Record t : Type := mk { grid_size : Z; cells : gmap coord string }.

Definition init (grid_size : Z) : t :=
  {| grid_size := grid_size;
     cells := list_to_map ((λ p, (p, " "%string)) <$> board grid_size) |}.

Definition update (self : t) (target : coord) (hit : bool) : t :=
  {| grid_size := grid_size self;
     cells := <[target := if hit then "X"%string else "O"%string]> (cells self) |}.

End Grid.

(** [any(s.check_hit(target) for s in ships)]: the generator stops at the
    first ship that reports a hit, the ships behind it are not asked. *)
Fixpoint any_check_hit (ships : list Ship.t) (target : coord)
  : bool * list Ship.t :=
  match ships with
  | [] => (false, [])
  | s :: rest =>
      let '(h, s') := Ship.check_hit s target in
      if h then (true, s' :: rest)
      else let '(h', rest') := any_check_hit rest target in (h', s' :: rest')
  end.

Module Player.

Record t : Type := mk { grid : Grid.t; ships : list Ship.t }.

Definition _calc_positions (self : t) (start : coord) (size : Z)
  (orient : string) : option (list coord) :=
  let '(r, c) := start in
  if decide (orient = "h"%string) then
    if decide (c + size > Grid.grid_size (grid self)) then None
    else Some ((λ i, (r, c + i)) <$> range size)
  else
    if decide (r + size > Grid.grid_size (grid self)) then None
    else Some ((λ i, (r + i, c)) <$> range size).

(** [all(s.is_sunk() for s in self.ships)] *)
Definition all_sunk (self : t) : bool := forallb Ship.is_sunk (ships self).

End Player.

(** ** Attack resolution: one round of [Game.play] *)

Module Game.

(** The messages collected in [self.reports]; turning them into text is
    left to the display. *)
Inductive report : Type :=
  | InvalidCoordinate
  | AlreadyFiredAt (move : string)
  | YouFireAt (move : string) (hit : bool)
  | YouWin
  | ComputerFiresAt (c : coord) (hit : bool)
  | YouLose.

Record t : Type :=
  mk { player : Player.t; computer : Player.t; pc_ctrl : strategy;
       grid_size : Z; reports : list report }.

(** What the prompt delivered: ['q'], or a move together with what
    [self.player._parse(move.upper())] made of it. *)
Inductive input : Type :=
  | Quit
  | Move (move : string) (tgt : option coord).

(** Whether the loop goes round again or the program exits. *)
Inductive control : Type := Continue | Exit.

(** The AI half of a round, from [pc_tgt = self.pc_ctrl.choose_target()].
    The report names the row by [string.ascii_uppercase[pc_tgt[0]]], which
    raises IndexError for an index outside [-26, 26). *)
Definition ai_turn (self : t) (g : Random) : result (control * t * Random) :=
  '(pc_tgt, ctrl, g1) ← choose_target (pc_ctrl self) g;
  let '(hit_pc, ships') := any_check_hit (Player.ships (player self)) pc_tgt in
  let player' :=
    {| Player.grid := Grid.update (Player.grid (player self)) pc_tgt hit_pc;
       Player.ships := ships' |} in
  let '(ctrl', g2) := process_result ctrl pc_tgt hit_pc g1 in
  if decide (-26 ≤ pc_tgt.1 < 26) then
    let self' :=
      {| player := player'; computer := computer self; pc_ctrl := ctrl';
         grid_size := grid_size self;
         reports := reports self ++ [ComputerFiresAt pc_tgt hit_pc] |} in
    if Player.all_sunk player' then
      mret (Exit, {| player := player'; computer := computer self;
                     pc_ctrl := ctrl'; grid_size := grid_size self;
                     reports := reports self' ++ [YouLose] |}, g2)
    else mret (Continue, self', g2)
  else Raise IndexError.

(** One pass through the body of [while True:] in [play]. *)
Definition round (self : t) (inp : input) (g : Random)
  : result (control * t * Random) :=
  let self :=
    {| player := player self; computer := computer self;
       pc_ctrl := pc_ctrl self; grid_size := grid_size self;
       reports := [] |} in
  match inp with
  | Quit => mret (Exit, self, g)
  | Move move None =>
      mret (Continue,
            {| player := player self; computer := computer self;
               pc_ctrl := pc_ctrl self; grid_size := grid_size self;
               reports := reports self ++ [InvalidCoordinate] |}, g)
  | Move move (Some tgt) =>
      match Grid.cells (Player.grid (computer self)) !! tgt with
      | None => Raise KeyError
      | Some cell =>
          if decide (cell ≠ " "%string) then
            mret (Continue,
                  {| player := player self; computer := computer self;
                     pc_ctrl := pc_ctrl self; grid_size := grid_size self;
                     reports := reports self ++ [AlreadyFiredAt move] |}, g)
          else
            let '(hit, ships') :=
              any_check_hit (Player.ships (computer self)) tgt in
            let computer' :=
              {| Player.grid :=
                   Grid.update (Player.grid (computer self)) tgt hit;
                 Player.ships := ships' |} in
            let self' :=
              {| player := player self; computer := computer';
                 pc_ctrl := pc_ctrl self; grid_size := grid_size self;
                 reports := reports self ++ [YouFireAt move hit] |} in
            if Player.all_sunk computer' then
              mret (Exit,
                    {| player := player self; computer := computer';
                       pc_ctrl := pc_ctrl self; grid_size := grid_size self;
                       reports := reports self' ++ [YouWin] |}, g)
            else ai_turn self' g
      end
  end.

End Game.

(** ** Vocabulary of the properties *)

(** Every cell of the board was targeted by the instance. *)
Definition exhausted (s : strategy) : Prop :=
  ∀ p, in_bounds (grid_size s) p → p ∈ shots s.

(** Some cell of the board was not targeted yet. *)
Definition remaining (s : strategy) : Prop :=
  ∃ p, in_bounds (grid_size s) p ∧ p ∉ shots s.

(** The states an instance can be in: it is constructed by [__init__] and
    then only changed by its own methods. *)
Inductive reachable : strategy → Prop :=
  | reachable_new d n : reachable (new_strategy d n)
  | reachable_choose s g c s' g' :
      reachable s → choose_target s g = Ok (c, s', g') → reachable s'
  | reachable_process s c hit g :
      reachable s → reachable (process_result s c hit g).1.

(** What is remembered and what is queued lies on the board. *)
Definition bounded (s : strategy) : Prop :=
  Forall (in_bounds (grid_size s)) (targets s) ∧
  ∀ p, p ∈ shots s → in_bounds (grid_size s) p.

Definition count_choose (calls : list call) : nat :=
  length (filter (λ k, is_choose k = true) calls).

(** Every [choose_target] of the session is called while a cell remains
    that the instance has not targeted. *)
Fixpoint has_room (s : strategy) (g : Random) (calls : list call) : Prop :=
  match calls with
  | [] => True
  | Choose :: calls' =>
      remaining s ∧
      match choose_target s g with
      | Ok (_, s', g') => has_room s' g' calls'
      | Raise _ => True
      end
  | Process c hit :: calls' =>
      let '(s', g') := process_result s c hit g in has_room s' g' calls'
  end.

(** A generator state to run examples on. *)
Definition seed0 : Random := {| tape := λ i, (7 * i + 3)%nat; cursor := 0 |}.

(** What [Game.__init__] sets up and every round keeps: the strategy's
    memory lies on the board, the human's grid has a cell for every
    coordinate of the board, and a cell of that grid that is no longer
    blank is one the strategy remembers having shot. *)
Definition game_consistent (game : Game.t) : Prop :=
  let ctrl := Game.pc_ctrl game in
  let cells := Grid.cells (Player.grid (Game.player game)) in
  bounded ctrl ∧
  (∀ p, in_bounds (grid_size ctrl) p → is_Some (cells !! p)) ∧
  (∀ p v, cells !! p = Some v → v ≠ " "%string → p ∈ shots ctrl).

(** The game as [Game.__init__] leaves it, for the fleets that placement
    produced. *)
Definition new_game (d : difficulty) (n : Z)
  (own enemy : list Ship.t) : Game.t :=
  {| Game.player := Player.mk (Grid.init n) own;
     Game.computer := Player.mk (Grid.init n) enemy;
     Game.pc_ctrl := new_strategy d n;
     Game.grid_size := n;
     Game.reports := [] |}.

(** A small game to run examples on: 2 × 2 boards, one ship of one cell on
    each side, and the enemy cell (0, 0) already fired at. *)
Definition demo_game : Game.t :=
  new_game medium 2 [Ship.init 1 [(1, 1)]] [Ship.init 1 [(0, 1)]].

Definition demo_game_fired : Game.t :=
  {| Game.player := Game.player demo_game;
     Game.computer :=
       Player.mk (Grid.update (Grid.init 2) (0, 0) false)
                 [Ship.init 1 [(0, 1)]];
     Game.pc_ctrl := Game.pc_ctrl demo_game;
     Game.grid_size := 2;
     Game.reports := [] |}.

(** ** Vocabulary of the further properties *)

(** The data-model invariant of a ship: its positions are pairwise
    distinct, there are [size] of them, and only positions are hit. *)
Definition ship_wf (s : Ship.t) : Prop :=
  NoDup (Ship.positions s) ∧
  Z.of_nat (length (Ship.positions s)) = Ship.size s ∧
  ∀ p, p ∈ Ship.hits s → p ∈ Ship.positions s.

(** [for coord in targets: ship.check_hit(coord)] *)
Definition shoot_all (s : Ship.t) (targets : list coord) : Ship.t :=
  foldl (λ s t, (Ship.check_hit s t).2) s targets.

(** ** More ways to stop

    The code beyond the strategies also stops with [ValueError], with
    [EOFError] when [input()] finds no more input, and with [SystemExit]
    when it calls [sys.exit()]. *)
Inductive raised : Type :=
  | Builtin (e : exn)
  | ValueError
  | EOFError
  | SystemExit.

Inductive outcome (A : Type) : Type :=
  | Return (a : A)
  | Abort (e : raised).
Arguments Return {A} a.
Arguments Abort {A} e.

Global Instance outcome_ret : MRet outcome := λ A a, Return a.
Global Instance outcome_bind : MBind outcome := λ A B f m,
  match m with
  | Return a => f a
  | Abort e => Abort e
  end.

Definition lift {A} (m : result A) : outcome A :=
  match m with
  | Ok a => Return a
  | Raise e => Abort (Builtin e)
  end.

(** [random.randrange(n)]: [randbelow(n)] for a positive [n], ValueError
    for an empty range. *)
Definition randrange (n : Z) (g : Random) : outcome (Z * Random) :=
  if decide (0 < n) then
    let '(i, g') := randbelow (Z.to_nat n) g in Return (Z.of_nat i, g')
  else Abort ValueError.

(** ** Random placement of a fleet *)

Module Placement.

(** [positions and not any(p in occupied for p in positions)] *)
Definition acceptable (positions : option (list coord))
  (occupied : gset coord) : Prop :=
  match positions with
  | Some (p :: ps) => Forall (λ q, q ∉ occupied) (p :: ps)
  | _ => False
  end.

Global Instance acceptable_dec positions occupied :
  Decision (acceptable positions occupied).
Proof. destruct positions as [[|p ps]|]; cbn; apply _. Defined.

(** The [while not placed:] loop of [random_placement] for one ship; one
    unit of [fuel] is one pass, [None] is a loop that is still running when
    the fuel is used up. *)
Fixpoint place_random (fuel : nat) (grid_size : Z) (self : Player.t)
  (occupied : gset coord) (size : Z) (g : Random)
  : option (outcome (Player.t * gset coord * Random)) :=
  match fuel with
  | O => None
  | S fuel' =>
      match lift (choice ["h"; "v"]%string g) with
      | Abort e => Some (Abort e)
      | Return (orient, g1) =>
          match randrange grid_size g1 with
          | Abort e => Some (Abort e)
          | Return (r, g2) =>
              match randrange grid_size g2 with
              | Abort e => Some (Abort e)
              | Return (c, g3) =>
                  let positions :=
                    Player._calc_positions self (r, c) size orient in
                  if decide (acceptable positions occupied) then
                    let cells := default [] positions in
                    Some (Return
                      ({| Player.grid := Player.grid self;
                          Player.ships :=
                            Player.ships self ++ [Ship.init size cells] |},
                       occupied ∪ list_to_set cells, g3))
                  else place_random fuel' grid_size self occupied size g3
              end
          end
      end
  end.

(** [for size in ship_sizes:] around that loop; every ship has [fuel]
    passes of its own. *)
Fixpoint place_fleet (fuel : nat) (grid_size : Z) (self : Player.t)
  (occupied : gset coord) (ship_sizes : list Z) (g : Random)
  : option (outcome (Player.t * Random)) :=
  match ship_sizes with
  | [] => Some (Return (self, g))
  | size :: ship_sizes' =>
      match place_random fuel grid_size self occupied size g with
      | None => None
      | Some (Abort e) => Some (Abort e)
      | Some (Return (self', occupied', g')) =>
          place_fleet fuel grid_size self' occupied' ship_sizes' g'
      end
  end.

Definition random_placement (fuel : nat) (grid_size : Z)
  (ship_sizes : list Z) (g : Random) : option (outcome (Player.t * Random)) :=
  place_fleet fuel grid_size
    {| Player.grid := Grid.init grid_size; Player.ships := [] |} ∅
    ship_sizes g.

End Placement.

(** The invariant of a fleet on an [n × n] board: every ship satisfies the
    ship invariant and lies on the board, and no cell belongs to two
    ships. *)
Definition fleet_wf (n : Z) (ships : list Ship.t) : Prop :=
  Forall ship_wf ships ∧
  Forall (λ s, Forall (in_bounds n) (Ship.positions s)) ships ∧
  NoDup (ships ≫= Ship.positions).

(** ** What the code takes from Python and from colorama

    [int], [str.strip], [str.upper] and [str.lower] are builtins, the
    colour codes are constants of colorama; the code is modelled for any
    such functions and constants.  [int s = None] stands for the
    ValueError of [int(s)].  A text is a [string], a sequence of
    characters, and the standard input is the list of the lines it still
    holds. *)
Record builtins : Type :=
  { int : string → option Z;
    strip : string → string;
    upper : string → string;
    lower : string → string }.

Record colors : Type :=
  { RED : string; CYAN : string; GREEN : string; RESET_ALL : string }.

(** [string.ascii_uppercase] *)
Definition ascii_uppercase : string := "ABCDEFGHIJKLMNOPQRSTUVWXYZ".

(** [s[:n]], for a negative [n] counted from the end *)
Definition slice_to (n : Z) (s : string) : string :=
  if decide (0 ≤ n) then String.substring 0 (Z.to_nat n) s
  else String.substring 0 (Z.to_nat (Z.of_nat (String.length s) + n)) s.

(** ** Display *)

Module Display.

(** The symbol of one cell in [Grid.render], before [Style.RESET_ALL] is
    appended; [ships = None] is the default argument. *)
Definition symbol (k : colors) (cell : string) (show_ships : bool)
  (ships : option (list Ship.t)) (p : coord) : string :=
  if decide (cell = "X"%string) then (RED k ++ "X")%string
  else if decide (cell = "O"%string) then (CYAN k ++ "O")%string
  else if bool_decide (cell = " "%string) && show_ships &&
          match ships with
          | Some fleet =>
              existsb (λ s, bool_decide (p ∈ Ship.positions s)) fleet
          | None => false
          end
       then (GREEN k ++ "S")%string
  else " "%string.

(** One row of the board: [IndexError] when the alphabet has no letter for
    the row, [KeyError] when the dictionary lacks one of its cells. *)
Definition render_row (k : colors) (self : Grid.t) (show_ships : bool)
  (ships : option (list Ship.t)) (r : Z) : result string :=
  match String.get (Z.to_nat r) ascii_uppercase with
  | None => Raise IndexError
  | Some row_label =>
      row_cells ← mapM (λ c,
        match Grid.cells self !! (r, c) with
        | None => Raise KeyError
        | Some cell =>
            Ok (symbol k cell show_ships ships (r, c) ++ RESET_ALL k)%string
        end) (range (Grid.grid_size self));
      mret (String row_label "" ++ " " ++ String.concat " " row_cells)%string
  end.

Definition render (k : colors) (self : Grid.t) (show_ships : bool)
  (ships : option (list Ship.t)) : result (list string) :=
  let header :=
    ("  " ++ String.concat " "
               ((λ i, pretty (i + 1)) <$> range (Grid.grid_size self)))%string in
  rows ← mapM (render_row k self show_ships ships)
              (range (Grid.grid_size self));
  mret (header :: rows).

End Display.

(** ** The human player: coordinates and placement typed in *)

Module Human.

Definition _parse (py : builtins) (self : Player.t) (text : string)
  : option coord :=
  match text with
  | String a rest =>
      if decide ((String.length text < 2)%nat ∨
                 a ∉ String.list_ascii_of_string
                       (slice_to (Grid.grid_size (Player.grid self))
                          ascii_uppercase))
      then None
      else
        let r := Z.of_nat (nat_of_ascii a) - Z.of_nat (nat_of_ascii "A"%char) in
        match int py rest with
        | None => None
        | Some v =>
            let c := v - 1 in
            if decide (0 ≤ c < Grid.grid_size (Player.grid self))
            then Some (r, c) else None
        end
  | EmptyString => None
  end.

(** The [while not placed:] loop of [Player.__init__] for one ship.  Every
    pass renders the board, reads two lines, and either places the ship or
    goes round again; [input()] on an exhausted input raises EOFError. *)
Fixpoint place_typed (py : builtins) (k : colors) (self : Player.t)
  (occupied : gset coord) (size : Z) (lines : list string)
  : outcome (Player.t * gset coord * list string) :=
  match Display.render k (Player.grid self) true (Some (Player.ships self)) with
  | Raise e => Abort (Builtin e)
  | Ok _ =>
      match lines with
      | line1 :: line2 :: lines' =>
          let text := upper py (strip py line1) in
          let orient := lower py (strip py line2) in
          let start := _parse py self text in
          match start with
          | Some start =>
              if decide (orient = "h" ∨ orient = "v")%string then
                let positions :=
                  Player._calc_positions self start size orient in
                if decide (Placement.acceptable positions occupied) then
                  let cells := default [] positions in
                  Return
                    ({| Player.grid := Player.grid self;
                        Player.ships :=
                          Player.ships self ++ [Ship.init size cells] |},
                     occupied ∪ list_to_set cells, lines')
                else place_typed py k self occupied size lines'
              else place_typed py k self occupied size lines'
          | None => place_typed py k self occupied size lines'
          end
      | _ => Abort EOFError
      end
  end.

Fixpoint place_fleet (py : builtins) (k : colors) (self : Player.t)
  (occupied : gset coord) (ship_sizes : list Z) (lines : list string)
  : outcome (Player.t * list string) :=
  match ship_sizes with
  | [] => Return (self, lines)
  | size :: ship_sizes' =>
      '(self', occupied', lines') ←
        place_typed py k self occupied size lines;
      place_fleet py k self' occupied' ship_sizes' lines'
  end.

(** [Player(grid_size, ship_sizes)] *)
Definition init (py : builtins) (k : colors) (grid_size : Z)
  (ship_sizes : list Z) (lines : list string)
  : outcome (Player.t * list string) :=
  place_fleet py k
    {| Player.grid := Grid.init grid_size; Player.ships := [] |} ∅
    ship_sizes lines.

End Human.

(** Builtins and colours to run examples on: an [int] that reads one
    decimal digit, and no stripping or case folding. *)
Definition demo_py : builtins :=
  {| int := λ s,
       match s with
       | String d EmptyString =>
           if decide (48 ≤ nat_of_ascii d ≤ 57)%nat
           then Some (Z.of_nat (nat_of_ascii d) - 48) else None
       | _ => None
       end;
     strip := id; upper := id; lower := id |}.

Definition demo_colors : colors :=
  {| RED := "<r>"; CYAN := "<c>"; GREEN := "<g>"; RESET_ALL := "<0>" |}.

(** ** Board presets *)

Module BoardPreset.

Record t : Type := mk { grid_size : Z; ship_sizes : list Z }.

Definition _presets : gmap string t :=
  list_to_map
    [("small"%string, mk 5 [2; 2; 3]);
     ("medium"%string, mk 6 [2; 2; 2; 3]);
     ("big"%string, mk 8 [2; 2; 2; 3; 4])].

(** [select]: one line of input per pass of [while True:]; ['q'] leaves
    through [sys.exit()], a name of a preset returns it, anything else
    asks again. *)
Fixpoint select (py : builtins) (lines : list string)
  : outcome (t * list string) :=
  match lines with
  | [] => Abort EOFError
  | line :: lines' =>
      let choice := lower py (strip py line) in
      if decide (choice = "q"%string) then Abort SystemExit
      else
        match _presets !! choice with
        | Some p => Return (mk (grid_size p) (ship_sizes p), lines')
        | None => select py lines'
        end
  end.

End BoardPreset.

(** ** The game: construction and main loop *)

Module Session.

(** The [strategies] dictionary of [Game.__init__], by difficulty. *)
Definition strategies : gmap string difficulty :=
  list_to_map
    [("easy"%string, easy); ("medium"%string, medium); ("hard"%string, hard)].

(** The first prompt for the difficulty and the
    [while ai_choice not in strategies:] loop behind it. *)
Fixpoint ask_difficulty (py : builtins) (lines : list string)
  : outcome (difficulty * list string) :=
  match lines with
  | [] => Abort EOFError
  | line :: lines' =>
      match strategies !! lower py (strip py line) with
      | Some d => Return (d, lines')
      | None => ask_difficulty py lines'
      end
  end.

(** [Game()]: [fuel] bounds the passes of the random placement of each
    enemy ship, [None] is a placement that is still searching. *)
Definition init (fuel : nat) (py : builtins) (k : colors)
  (lines : list string) (g : Random)
  : option (outcome (Game.t * list string * Random)) :=
  match ask_difficulty py lines with
  | Abort e => Some (Abort e)
  | Return (d, lines1) =>
      match BoardPreset.select py lines1 with
      | Abort e => Some (Abort e)
      | Return (preset, lines2) =>
          let n := BoardPreset.grid_size preset in
          let sizes := BoardPreset.ship_sizes preset in
          match Human.init py k n sizes lines2 with
          | Abort e => Some (Abort e)
          | Return (player, lines3) =>
              match Placement.random_placement fuel n sizes g with
              | None => None
              | Some (Abort e) => Some (Abort e)
              | Some (Return (computer, g')) =>
                  Some (Return
                    ({| Game.player := player;
                        Game.computer := computer;
                        Game.pc_ctrl := new_strategy d n;
                        Game.grid_size := n;
                        Game.reports := [] |}, lines3, g'))
              end
          end
      end
  end.

(** The two boards as [play] and [display_and_exit] render them. *)
Definition render_boards (k : colors) (self : Game.t)
  : result (list string * list string) :=
  own ← Display.render k (Player.grid (Game.player self)) true
          (Some (Player.ships (Game.player self)));
  opp ← Display.render k (Player.grid (Game.computer self)) false None;
  mret (own, opp).

(** [play]: one line of input per pass of [while True:].  The loop never
    returns; the result is what ended it, together with the states of the
    game that were put on the screen, in order: one at the head of every
    pass, and the last one by [display_and_exit] when the game is won or
    lost. *)
Fixpoint play (py : builtins) (k : colors) (self : Game.t)
  (lines : list string) (g : Random) : list Game.t * raised :=
  match render_boards k self with
  | Raise e => ([], Builtin e)
  | Ok _ =>
      match lines with
      | [] => ([self], EOFError)
      | line :: lines' =>
          let move := lower py (strip py line) in
          if decide (move = "q"%string) then ([self], SystemExit)
          else
            let tgt := Human._parse py (Game.player self) (upper py move) in
            match Game.round self (Game.Move (upper py move) tgt) g with
            | Raise e => ([self], Builtin e)
            | Ok (Game.Continue, self', g') =>
                let '(shown, e) := play py k self' lines' g' in
                (self :: shown, e)
            | Ok (Game.Exit, self', g') =>
                match render_boards k self' with
                | Raise e => ([self], Builtin e)
                | Ok _ => ([self; self'], SystemExit)
                end
            end
      end
  end.

End Session.

(** What the boards say is true.  A cell of a side's grid is ['X'] exactly
    when it is among the hits of a ship of that side, every cell marked
    ['O'] belongs to no ship, the grid has exactly the cells of the
    [n × n] board, and the fleet satisfies the fleet invariant. *)
Definition side_wf (n : Z) (side : Player.t) : Prop :=
  let cells := Grid.cells (Player.grid side) in
  fleet_wf n (Player.ships side) ∧
  (∀ p, is_Some (cells !! p) ↔ in_bounds n p) ∧
  (∀ p, cells !! p = Some "X"%string ↔
        ∃ s, s ∈ Player.ships side ∧ p ∈ Ship.hits s) ∧
  (∀ p, cells !! p = Some "O"%string →
        ∀ s, s ∈ Player.ships side → p ∉ Ship.positions s) ∧
  (∀ p v, cells !! p = Some v →
          v = " "%string ∨ v = "X"%string ∨ v = "O"%string).

(** The invariant of a game on boards of size [n]. *)
Definition game_wf (n : Z) (game : Game.t) : Prop :=
  side_wf n (Game.player game) ∧
  side_wf n (Game.computer game) ∧
  grid_size (Game.pc_ctrl game) = n ∧
  bounded (Game.pc_ctrl game) ∧
  (∀ p, p ∈ shots (Game.pc_ctrl game) ↔
        ∃ v, Grid.cells (Player.grid (Game.player game)) !! p = Some v ∧
             v ≠ " "%string).

(** Every mark on either board of [a] is still there in [b]. *)
Definition keeps_marks (a b : Game.t) : Prop :=
  ∀ (side : Game.t → Player.t), side = Game.player ∨ side = Game.computer →
  ∀ p v, Grid.cells (Player.grid (side a)) !! p = Some v →
         v ≠ " "%string →
         Grid.cells (Player.grid (side b)) !! p = Some v.
(** ** Properties of the board *)

Lemma elem_of_range (n i : Z) : i ∈ range n ↔ 0 ≤ i < n.
Proof. unfold range. rewrite elem_of_seqZ. lia. Qed.

Lemma elem_of_board (n : Z) (p : coord) : p ∈ board n ↔ in_bounds n p.
Proof.
  unfold board, in_bounds. destruct p as [r c]; simpl.
  rewrite list_elem_of_bind. split.
  - intros (r' & Hin & Hr). apply list_elem_of_bind in Hin as (c' & Hin & Hc).
    apply list_elem_of_singleton in Hin. injection Hin as -> ->.
    split; by apply elem_of_range.
  - intros [Hr Hc]. exists r. split; [|by apply elem_of_range].
    apply list_elem_of_bind. exists c. split; [by apply list_elem_of_singleton|by apply elem_of_range].
Qed.

Lemma NoDup_board (n : Z) : NoDup (board n).
Proof.
  unfold board, range. apply NoDup_bind.
  - intros r1 r2 p _ _ H1 H2.
    apply list_elem_of_bind in H1 as (c1 & H1 & _).
    apply list_elem_of_bind in H2 as (c2 & H2 & _).
    apply list_elem_of_singleton in H1, H2. congruence.
  - intros r _. apply NoDup_bind.
    + intros c1 c2 p _ _ H1 H2.
      apply list_elem_of_singleton in H1, H2. congruence.
    + intros c _. apply NoDup_singleton.
    + apply NoDup_seqZ.
  - apply NoDup_seqZ.
Qed.

Lemma length_bind_const {A B} (f : A → list B) (l : list A) (k : nat) :
  (∀ x, length (f x) = k) → length (l ≫= f) = (length l * k)%nat.
Proof.
  intros Hf. induction l as [|x l IH]; [done|].
  rewrite bind_cons, length_app, IH, Hf. simpl. lia.
Qed.

Lemma length_board (n : Z) :
  length (board n) = (Z.to_nat n * Z.to_nat n)%nat.
Proof.
  unfold board, range.
  rewrite (length_bind_const _ _ (Z.to_nat n)).
  - by rewrite length_seqZ.
  - intros r. rewrite (length_bind_const _ _ 1%nat); [|done].
    rewrite length_seqZ. lia.
Qed.

Lemma elem_of_unshot (n : Z) (shots : gset coord) (p : coord) :
  p ∈ unshot n shots ↔ in_bounds n p ∧ p ∉ shots.
Proof. unfold unshot. rewrite list_elem_of_filter, elem_of_board. tauto. Qed.

(** Fewer shots than cells leave a cell that was not shot. *)
Lemma unshot_remains (n : Z) (shots : gset coord) :
  (size shots < length (board n))%nat →
  ∃ p, in_bounds n p ∧ p ∉ shots.
Proof.
  intros Hlt.
  destruct (unshot n shots) as [|p l] eqn:E.
  - exfalso.
    assert (Hsub : list_to_set (board n) ⊆ shots).
    { intros p Hp. apply elem_of_list_to_set in Hp.
      destruct (decide (p ∈ shots)) as [|Hn]; [done|].
      assert (Hin : p ∈ unshot n shots)
        by (apply elem_of_unshot; split; [by apply elem_of_board|done]).
      rewrite E in Hin. by apply not_elem_of_nil in Hin. }
    apply subseteq_size in Hsub.
    rewrite size_list_to_set in Hsub by apply NoDup_board. lia.
  - exists p. apply elem_of_unshot. rewrite E. apply list_elem_of_here.
Qed.

(** ** Properties of the random source *)

Lemma randbelow_lt (n : nat) (g : Random) :
  (0 < n)%nat → ((randbelow n g).1 < n)%nat.
Proof. intros Hn. simpl. apply Nat.mod_upper_bound. lia. Qed.

Lemma choice_nonempty {A} (seq : list A) (g : Random) :
  seq ≠ [] → ∃ x g', choice seq g = Ok (x, g') ∧ x ∈ seq.
Proof.
  intros Hne. unfold choice.
  destruct seq as [|a seq]; [done|].
  destruct (randbelow (length (a :: seq)) g) as [i g'] eqn:E.
  assert (Hi : (i < length (a :: seq))%nat).
  { pose proof (randbelow_lt (length (a :: seq)) g) as H.
    rewrite E in H. apply H. simpl. lia. }
  apply lookup_lt_is_Some_2 in Hi as [x Hx]. rewrite Hx.
  exists x, g'. split; [done|]. by eapply list_elem_of_lookup_2.
Qed.

Lemma choice_empty {A} (g : Random) : choice (@nil A) g = Raise IndexError.
Proof. done. Qed.

Lemma choice_Ok {A} (seq : list A) (g g' : Random) (x : A) :
  choice seq g = Ok (x, g') → x ∈ seq.
Proof.
  intros H. destruct seq as [|a seq]; [done|].
  destruct (choice_nonempty (a :: seq) g) as (y & g2 & Hy & Hin); [done|].
  congruence.
Qed.

(** ** Properties of the pop loop *)

Lemma next_fresh_Some cands shots c rest :
  next_fresh cands shots = Some (c, rest) →
  c ∈ cands ∧ rest `suffix_of` cands ∧ c ∉ shots.
Proof.
  induction cands as [|a cands IH]; simpl; [done|].
  case_decide as Ha.
  - intros [= -> ->]. split; [apply list_elem_of_here|]. split; [|done].
    by apply suffix_cons_r.
  - intros H. apply IH in H as (? & ? & ?).
    split; [by apply list_elem_of_further|]. split; [|done].
    by apply suffix_cons_r.
Qed.

Lemma next_fresh_None cands shots :
  next_fresh cands shots = None ↔ ∀ c, c ∈ cands → c ∈ shots.
Proof.
  induction cands as [|a cands IH]; simpl.
  - split; [|done]. intros _ c Hc. by apply not_elem_of_nil in Hc.
  - case_decide as Ha.
    + split; [done|]. intros H. exfalso. apply Ha, H, list_elem_of_here.
    + rewrite IH. split.
      * intros H c Hc. apply elem_of_cons in Hc as [->|Hc]; auto.
      * intros H c Hc. by apply H, list_elem_of_further.
Qed.

(** ** [swap] and [shuffle] only reorder *)

Lemma length_swap {A} (x : list A) (i j : nat) :
  length (swap x i j) = length x.
Proof.
  unfold swap. destruct (x !! i), (x !! j); try done.
  by rewrite !length_insert.
Qed.

Lemma swap_Permutation {A} (x : list A) (i j : nat) : swap x i j ≡ₚ x.
Proof.
  unfold swap.
  destruct (x !! i) as [a|] eqn:Hi; [|done].
  destruct (x !! j) as [b|] eqn:Hj; [|done].
  pose proof (lookup_lt_Some _ _ _ Hi) as Hli.
  pose proof (lookup_lt_Some _ _ _ Hj) as Hlj.
  apply Permutation_inj. split; [by rewrite !length_insert|].
  exists (λ n, if decide (n = i) then j else if decide (n = j) then i else n).
  split.
  - intros n m. repeat case_decide; intros; subst; congruence.
  - intros n.
    destruct (decide (n = j)) as [->|Hnj].
    + rewrite list_lookup_insert_eq by (by rewrite length_insert).
      repeat case_decide; subst; congruence.
    + rewrite list_lookup_insert_ne by done.
      destruct (decide (n = i)) as [->|Hni].
      * rewrite list_lookup_insert_eq by done.
        repeat case_decide; subst; congruence.
      * rewrite list_lookup_insert_ne by done.
        repeat case_decide; subst; congruence.
Qed.

Lemma shuffle_from_Permutation {A} (k : nat) (x : list A) (g : Random) :
  (shuffle_from k x g).1 ≡ₚ x.
Proof.
  revert x g. induction k as [|k IH]; intros x g; [done|].
  cbn [shuffle_from].
  destruct (randbelow (S (S k)) g) as [j g'].
  rewrite IH. apply swap_Permutation.
Qed.

Lemma shuffle_Permutation {A} (x : list A) (g : Random) :
  (shuffle x g).1 ≡ₚ x.
Proof. apply shuffle_from_Permutation. Qed.

(** ** The three strategies, one call at a time *)

Lemma RandomShooter_choose_Ok self g c s' g' :
  RandomShooter.choose_target self g = Ok (c, s', g') →
  in_bounds (RandomShooter.grid_size self) c ∧
  (c ∉ RandomShooter.shots self) ∧
  s' = RandomShooter.mk (RandomShooter.grid_size self)
         ({[c]} ∪ RandomShooter.shots self).
Proof.
  unfold RandomShooter.choose_target. cbn.
  destruct (choice _ g) as [[x g1]|e] eqn:E; [|done].
  cbn. intros [= <- <- <-].
  apply choice_Ok, elem_of_unshot in E. tauto.
Qed.

Lemma SeekAndDestroy_choose_Ok self g c s' g' :
  Forall (in_bounds (SeekAndDestroy.grid_size self))
         (SeekAndDestroy.targets self) →
  SeekAndDestroy.choose_target self g = Ok (c, s', g') →
  in_bounds (SeekAndDestroy.grid_size self) c ∧
  (c ∉ SeekAndDestroy.shots self) ∧
  SeekAndDestroy.grid_size s' = SeekAndDestroy.grid_size self ∧
  SeekAndDestroy.shots s' = {[c]} ∪ SeekAndDestroy.shots self ∧
  SeekAndDestroy.targets s' ⊆ SeekAndDestroy.targets self.
Proof.
  intros Hq. unfold SeekAndDestroy.choose_target.
  destruct (next_fresh _ _) as [[x rest]|] eqn:E.
  - intros [= <- <- <-]. cbn.
    apply next_fresh_Some in E as (Hin & Hsuf & Hn).
    rewrite elem_of_reverse in Hin.
    rewrite Forall_forall in Hq. split; [by apply Hq|].
    do 3 (split; [done|]).
    intros p Hp. rewrite elem_of_reverse in Hp.
    rewrite <- elem_of_reverse. destruct Hsuf as [k ->].
    apply elem_of_app. by right.
  - cbn. destruct (choice _ g) as [[x g1]|e] eqn:E'; [|done].
    cbn. intros [= <- <- <-]. cbn.
    apply choice_Ok, elem_of_unshot in E' as [? ?].
    do 4 (split; [done|]). intros p Hp. by apply not_elem_of_nil in Hp.
Qed.

(** The recursion of [StrategicGenius.choose_target] is one level deep:
    more than two frames change nothing. *)
Lemma choose_target_rec_fuel (fuel : nat) self g :
  (2 ≤ fuel)%nat →
  StrategicGenius.choose_target_rec fuel self g =
  StrategicGenius.choose_target_rec 2 self g.
Proof.
  intros Hf. destruct fuel as [|[|fuel]]; [lia|lia|].
  cbn. destruct (StrategicGenius.hunt_mode self); [done|].
  by destruct (next_fresh _ _) as [[? ?]|].
Qed.

Lemma StrategicGenius_hunt_Ok n sh q g c s' g' :
  StrategicGenius.choose_target_rec 1
    (StrategicGenius.mk n true sh q) g = Ok (c, s', g') →
  in_bounds n c ∧ (c ∉ sh) ∧
  s' = StrategicGenius.mk n true ({[c]} ∪ sh) q ∧
  (StrategicGenius.checkerboard n sh ≠ [] → (c.1 + c.2) `mod` 2 = 0).
Proof.
  cbn.
  destruct (StrategicGenius.checkerboard n sh) as [|a l] eqn:Ec.
  - destruct (choice _ g) as [[x g1]|e] eqn:E; [|done].
    cbn. intros [= <- <- <-].
    apply choice_Ok, elem_of_unshot in E as [? ?]. done.
  - destruct (choice _ g) as [[x g1]|e] eqn:E; [|done].
    cbn. intros [= <- <- <-].
    apply choice_Ok in E. rewrite <- Ec in E.
    apply list_elem_of_filter in E as [[? ?] Hb].
    apply elem_of_board in Hb. done.
Qed.

Lemma StrategicGenius_choose_Ok self g c s' g' :
  Forall (in_bounds (StrategicGenius.grid_size self))
         (StrategicGenius.targets self) →
  StrategicGenius.choose_target self g = Ok (c, s', g') →
  in_bounds (StrategicGenius.grid_size self) c ∧
  (c ∉ StrategicGenius.shots self) ∧
  StrategicGenius.grid_size s' = StrategicGenius.grid_size self ∧
  StrategicGenius.shots s' = {[c]} ∪ StrategicGenius.shots self ∧
  StrategicGenius.targets s' ⊆ StrategicGenius.targets self.
Proof.
  intros Hq. destruct self as [n h sh q]. cbn in Hq.
  unfold StrategicGenius.choose_target. destruct h.
  - intros H. apply (StrategicGenius_hunt_Ok n sh q g) in H
      as (? & ? & -> & _). cbn. done.
  - cbn [StrategicGenius.choose_target_rec StrategicGenius.hunt_mode
         StrategicGenius.targets StrategicGenius.shots
         StrategicGenius.grid_size].
    destruct (next_fresh q sh) as [[x rest]|] eqn:E.
    + intros [= <- <- <-]. cbn.
      apply next_fresh_Some in E as (Hin & Hsuf & Hn).
      rewrite Forall_forall in Hq. split; [by apply Hq|].
      do 3 (split; [done|]).
      intros p Hp. destruct Hsuf as [k ->]. apply elem_of_app. by right.
    + intros H. apply (StrategicGenius_hunt_Ok n sh [] g) in H
        as (? & ? & -> & _). cbn.
      do 4 (split; [done|]). intros p Hp. by apply not_elem_of_nil in Hp.
Qed.

(** ** The dispatching strategy, one call at a time *)

Lemma choose_target_Ok s g c s' g' :
  bounded s →
  choose_target s g = Ok (c, s', g') →
  in_bounds (grid_size s) c ∧ (c ∉ shots s) ∧
  grid_size s' = grid_size s ∧
  shots s' = {[c]} ∪ shots s ∧
  targets s' ⊆ targets s.
Proof.
  intros [Hq _]. unfold choose_target, mbind, result_bind.
  destruct s as [e|m|h]; cbn [grid_size shots targets] in *.
  - destruct (RandomShooter.choose_target e g) as [[[x e'] g1]|] eqn:E; [|done].
    cbn. intros [= <- <- <-].
    apply RandomShooter_choose_Ok in E as (? & ? & ->). by cbn.
  - destruct (SeekAndDestroy.choose_target m g) as [[[x m'] g1]|] eqn:E; [|done].
    cbn. intros [= <- <- <-].
    by apply SeekAndDestroy_choose_Ok in E.
  - destruct (StrategicGenius.choose_target h g) as [[[x h'] g1]|] eqn:E; [|done].
    cbn. intros [= <- <- <-].
    by apply StrategicGenius_choose_Ok in E.
Qed.

Lemma bounded_choose s g c s' g' :
  bounded s → choose_target s g = Ok (c, s', g') → bounded s'.
Proof.
  intros Hb H. pose proof (choose_target_Ok _ _ _ _ _ Hb H)
    as (Hc & _ & Hn & Hs & Hq).
  destruct Hb as [Hb1 Hb2]. split.
  - rewrite Hn. rewrite Forall_forall in Hb1 |- *. auto.
  - intros p. rewrite Hs, Hn. intros [->%elem_of_singleton|?]%elem_of_union; auto.
Qed.

(** ** When a call succeeds and when it fails *)

Lemma unshot_nonempty (n : Z) (sh : gset coord) :
  (∃ p, in_bounds n p ∧ p ∉ sh) → unshot n sh ≠ [].
Proof.
  intros (p & Hp) E. apply elem_of_unshot in Hp.
  rewrite E in Hp. by apply not_elem_of_nil in Hp.
Qed.

Lemma unshot_empty (n : Z) (sh : gset coord) :
  (∀ p, in_bounds n p → p ∈ sh) → unshot n sh = [].
Proof.
  intros H. destruct (unshot n sh) as [|p l] eqn:E; [done|].
  assert (Hp : p ∈ unshot n sh) by (rewrite E; apply list_elem_of_here).
  apply elem_of_unshot in Hp as [Hb Hn]. by apply H in Hb.
Qed.

Lemma checkerboard_sub_unshot (n : Z) (sh : gset coord) (p : coord) :
  p ∈ StrategicGenius.checkerboard n sh → p ∈ unshot n sh.
Proof.
  unfold StrategicGenius.checkerboard, unshot.
  rewrite !list_elem_of_filter. tauto.
Qed.

Lemma checkerboard_empty (n : Z) (sh : gset coord) :
  (∀ p, in_bounds n p → p ∈ sh) → StrategicGenius.checkerboard n sh = [].
Proof.
  intros H. destruct (StrategicGenius.checkerboard n sh) as [|p l] eqn:E; [done|].
  assert (Hp : p ∈ StrategicGenius.checkerboard n sh)
    by (rewrite E; apply list_elem_of_here).
  apply checkerboard_sub_unshot in Hp.
  rewrite (unshot_empty _ _ H) in Hp. by apply not_elem_of_nil in Hp.
Qed.

Lemma StrategicGenius_hunt_succeeds (n : Z) (sh : gset coord) q g :
  (∃ p, in_bounds n p ∧ p ∉ sh) →
  ∃ c s' g', StrategicGenius.choose_target_rec 1
               (StrategicGenius.mk n true sh q) g = Ok (c, s', g').
Proof.
  intros Hp. cbn.
  destruct (StrategicGenius.checkerboard n sh) as [|a l] eqn:Ec.
  - destruct (choice_nonempty (unshot n sh) g) as (x & g1 & -> & _);
      [by apply unshot_nonempty|]. cbn. eauto.
  - destruct (choice_nonempty (a :: l) g) as (x & g1 & -> & _); [done|].
    cbn. eauto.
Qed.

Lemma StrategicGenius_hunt_exhausted (n : Z) (sh : gset coord) q g :
  (∀ p, in_bounds n p → p ∈ sh) →
  StrategicGenius.choose_target_rec 1 (StrategicGenius.mk n true sh q) g
  = Raise IndexError.
Proof.
  intros H. cbn. by rewrite (checkerboard_empty _ _ H), (unshot_empty _ _ H).
Qed.

Lemma StrategicGenius_hunting_eq (n : Z) (sh : gset coord) q g :
  StrategicGenius.choose_target (StrategicGenius.mk n true sh q) g =
  StrategicGenius.choose_target_rec 1 (StrategicGenius.mk n true sh q) g.
Proof. reflexivity. Qed.

Lemma StrategicGenius_targeting_eq (n : Z) (sh : gset coord) q g :
  StrategicGenius.choose_target (StrategicGenius.mk n false sh q) g =
  match next_fresh q sh with
  | Some (c, rest) =>
      Ok (c, StrategicGenius.mk n false ({[c]} ∪ sh) rest, g)
  | None =>
      StrategicGenius.choose_target_rec 1 (StrategicGenius.mk n true sh []) g
  end.
Proof. reflexivity. Qed.

Lemma choose_target_succeeds s g :
  remaining s → ∃ c s' g', choose_target s g = Ok (c, s', g').
Proof.
  intros Hp. unfold remaining in Hp. unfold choose_target.
  destruct s as [e|m|h]; cbn [grid_size shots] in Hp.
  - unfold RandomShooter.choose_target.
    destruct (choice_nonempty _ g (unshot_nonempty _ _ Hp)) as (x & g1 & -> & _).
    cbn. eauto.
  - unfold SeekAndDestroy.choose_target.
    destruct (next_fresh _ _) as [[x rest]|]; [cbn; eauto|].
    destruct (choice_nonempty _ g (unshot_nonempty _ _ Hp)) as (x & g1 & -> & _).
    cbn. eauto.
  - destruct h as [n [] sh q];
      cbn [StrategicGenius.grid_size StrategicGenius.shots] in Hp.
    + destruct (StrategicGenius_hunt_succeeds n sh q g Hp) as (x & h' & g1 & E).
      rewrite StrategicGenius_hunting_eq, E. cbn. eauto.
    + rewrite StrategicGenius_targeting_eq.
      destruct (next_fresh q sh) as [[x rest]|]; [cbn; eauto|].
      destruct (StrategicGenius_hunt_succeeds n sh [] g Hp) as (x & h' & g1 & E).
      rewrite E. cbn. eauto.
Qed.

Lemma choose_target_exhausted s g :
  bounded s → exhausted s → choose_target s g = Raise IndexError.
Proof.
  intros [Hq _] Hx. unfold exhausted in Hx. unfold choose_target.
  assert (Hall : ∀ c, c ∈ targets s → c ∈ shots s).
  { intros c Hc. rewrite Forall_forall in Hq. auto. }
  destruct s as [e|m|h]; cbn [grid_size shots targets] in *.
  - unfold RandomShooter.choose_target.
    by rewrite (unshot_empty _ _ Hx).
  - unfold SeekAndDestroy.choose_target.
    assert (E : next_fresh (reverse (SeekAndDestroy.targets m))
                  (SeekAndDestroy.shots m) = None).
    { apply next_fresh_None. intros c Hc. rewrite elem_of_reverse in Hc. auto. }
    rewrite E. by rewrite (unshot_empty _ _ Hx).
  - destruct h as [n [] sh q];
      cbn [StrategicGenius.grid_size StrategicGenius.shots
           StrategicGenius.targets] in *.
    + by rewrite StrategicGenius_hunting_eq, StrategicGenius_hunt_exhausted.
    + rewrite StrategicGenius_targeting_eq.
      rewrite (proj2 (next_fresh_None q sh) Hall).
      by rewrite StrategicGenius_hunt_exhausted.
Qed.

(** ** [process_result] *)

Lemma SeekAndDestroy_process_hit self c g :
  ∃ valid,
    valid ≡ₚ filter (in_bounds (SeekAndDestroy.grid_size self))
               (SeekAndDestroy.neighbors c) ∧
    (SeekAndDestroy.process_result self c true g).1 =
      SeekAndDestroy.mk (SeekAndDestroy.grid_size self)
        (SeekAndDestroy.targets self ++ valid) (SeekAndDestroy.shots self).
Proof.
  unfold SeekAndDestroy.process_result.
  pose proof (shuffle_Permutation
    (filter (in_bounds (SeekAndDestroy.grid_size self))
       (SeekAndDestroy.neighbors c)) g) as Hp.
  destruct (shuffle _ g) as [valid g']. exists valid. by split.
Qed.

Lemma process_result_grid_size s c hit g :
  grid_size (process_result s c hit g).1 = grid_size s.
Proof.
  destruct s as [e|m|h]; cbn; [done| |by destruct hit].
  destruct hit; [|done]. unfold SeekAndDestroy.process_result.
  by destruct (shuffle _ g).
Qed.

Lemma process_result_shots s c hit g :
  shots (process_result s c hit g).1 = shots s.
Proof.
  destruct s as [e|m|h]; cbn; [done| |by destruct hit].
  destruct hit; [|done]. unfold SeekAndDestroy.process_result.
  by destruct (shuffle _ g).
Qed.

Lemma process_result_targets_bounded s c hit g :
  Forall (in_bounds (grid_size s)) (targets s) →
  Forall (in_bounds (grid_size s)) (targets (process_result s c hit g).1).
Proof.
  intros Hq. destruct s as [e|m|h]; cbn [grid_size targets] in *.
  - by cbn.
  - destruct hit; [|done]. cbn [process_result].
    destruct (SeekAndDestroy_process_hit m c g) as (valid & Hp & E).
    destruct (SeekAndDestroy.process_result m c true g) as [m' g'].
    cbn in E. subst m'. cbn. apply Forall_app. split; [done|].
    rewrite Hp. apply Forall_forall. intros p Hin.
    by apply list_elem_of_filter in Hin as [? _].
  - destruct hit; [|done].
    cbn [process_result StrategicGenius.process_result fst targets
         StrategicGenius.targets].
    apply Forall_app. split; [done|].
    apply Forall_forall. intros p Hin.
    by apply list_elem_of_filter in Hin as [[? _] _].
Qed.

Lemma bounded_process s c hit g :
  bounded s → bounded (process_result s c hit g).1.
Proof.
  intros [Hq Hs]. split.
  - rewrite process_result_grid_size. by apply process_result_targets_bounded.
  - by rewrite process_result_grid_size, process_result_shots.
Qed.

Lemma bounded_new d n : bounded (new_strategy d n).
Proof.
  split.
  - destruct d; cbn; constructor.
  - intros p Hp. destruct d; cbn in Hp; by apply not_elem_of_empty in Hp.
Qed.

Lemma reachable_bounded s : reachable s → bounded s.
Proof.
  induction 1 as [d n|s g c s' g' _ IH H|s c hit g _ IH].
  - apply bounded_new.
  - by eapply bounded_choose.
  - by apply bounded_process.
Qed.

(** ** Exhausted boards *)

(** C1.  For every strategy instance, whatever its class and whatever the
    state its own methods have brought it to: when every cell of its
    [grid_size × grid_size] board was already targeted, [choose_target]
    fails (the IndexError that [random.choice] raises on an empty sequence
    is the exhausted-board error), and when a cell remains that was not
    targeted, [choose_target] returns a coordinate. *)
Theorem choose_target_fails_iff_exhausted (s : strategy) (g : Random) :
  reachable s →
  (exhausted s → choose_target s g = Raise IndexError) ∧
  (remaining s → ∃ c s' g', choose_target s g = Ok (c, s', g')).
Proof.
  intros Hr. split.
  - intros Hx. apply choose_target_exhausted; [|done].
    by apply reachable_bounded.
  - apply choose_target_succeeds.
Qed.

Lemma choose_target_fails_iff_exhausted_witness :
  choose_target (Medium (SeekAndDestroy.mk 1 [] {[(0, 0)]})) seed0
    = Raise IndexError ∧
  ∃ c s' g', choose_target (new_strategy hard 2) seed0 = Ok (c, s', g').
Proof.
  split.
  - apply choose_target_fails_iff_exhausted.
    + apply (reachable_choose (new_strategy medium 1) seed0 (0, 0) _
               (mkRandom (tape seed0) 1)).
      * apply reachable_new.
      * vm_compute. reflexivity.
    + intros [r c] [H1 H2]. cbn in *.
      assert (r = 0 ∧ c = 0) as [-> ->] by lia.
      by apply elem_of_singleton.
  - apply choose_target_fails_iff_exhausted.
    + apply reachable_new.
    + exists (0, 0). split; [unfold in_bounds; cbn; lia|].
      cbn. apply not_elem_of_empty.
Defined.

(** ** Sessions *)

Lemma count_choose_Choose calls :
  count_choose (Choose :: calls) = S (count_choose calls).
Proof. done. Qed.

Lemma count_choose_Process c hit calls :
  count_choose (Process c hit :: calls) = count_choose calls.
Proof. done. Qed.

Lemma count_choose_replicate (k : nat) : count_choose (replicate k Choose) = k.
Proof.
  induction k as [|k IH]; [done|].
  cbn [replicate]. by rewrite count_choose_Choose, IH.
Qed.

Lemma run_Choose s g calls c s1 g1 :
  choose_target s g = Ok (c, s1, g1) →
  run s g (Choose :: calls) =
  match run s1 g1 calls with
  | Ok (out, s2, g2) => Ok (c :: out, s2, g2)
  | Raise e => Raise e
  end.
Proof.
  intros E. cbn [run]. rewrite E. cbn.
  by destruct (run s1 g1 calls) as [[[out s2] g2]|e].
Qed.

Lemma run_Process s g calls c hit :
  run s g (Process c hit :: calls) =
  run (process_result s c hit g).1 (process_result s c hit g).2 calls.
Proof. cbn [run]. by destruct (process_result s c hit g). Qed.

Lemma has_room_Choose s g calls c s1 g1 :
  choose_target s g = Ok (c, s1, g1) →
  has_room s g (Choose :: calls) ↔ remaining s ∧ has_room s1 g1 calls.
Proof. intros E. cbn [has_room]. by rewrite E. Qed.

Lemma has_room_Process s g calls c hit :
  has_room s g (Process c hit :: calls) ↔
  has_room (process_result s c hit g).1 (process_result s c hit g).2 calls.
Proof. cbn [has_room]. by destruct (process_result s c hit g). Qed.

(** A session in which every [choose_target] finds a cell that was not shot
    runs to its end, returns pairwise distinct cells of the board that were
    not shot before, and has exactly these added to the instance's shots. *)
Lemma run_spec calls : ∀ s g,
  bounded s →
  has_room s g calls →
  ∃ out s' g',
    run s g calls = Ok (out, s', g') ∧
    NoDup out ∧
    (∀ c, c ∈ out → c ∉ shots s) ∧
    Forall (in_bounds (grid_size s)) out ∧
    shots s' = list_to_set out ∪ shots s ∧
    length out = count_choose calls ∧
    grid_size s' = grid_size s ∧
    bounded s'.
Proof.
  induction calls as [|[|c hit] calls IH]; intros s g Hb Hroom.
  - exists [], s, g. cbn. split; [done|]. split; [constructor|].
    split; [by intros c Hc%not_elem_of_nil|]. split; [constructor|].
    split; [by rewrite (left_id_L ∅ (∪))|done].
  - assert (Hrem : remaining s) by (by destruct Hroom).
    destruct (choose_target_succeeds s g Hrem) as (c & s1 & g1 & E).
    apply (has_room_Choose _ _ _ _ _ _ E) in Hroom as [_ Hroom].
    pose proof (choose_target_Ok _ _ _ _ _ Hb E) as (Hc & Hn & Hg & Hs & _).
    pose proof (bounded_choose _ _ _ _ _ Hb E) as Hb1.
    destruct (IH s1 g1 Hb1 Hroom)
      as (out & s2 & g2 & Er & Hnd & Hout & Hin & Hs2 & Hlen & Hg2 & Hb2).
    exists (c :: out), s2, g2.
    rewrite (run_Choose _ _ _ _ _ _ E), Er.
    split; [done|]. split.
    { constructor; [|done]. intros Hc'. apply Hout in Hc'.
      apply Hc'. rewrite Hs. apply elem_of_union_l. by apply elem_of_singleton. }
    split.
    { intros p [->|Hp]%elem_of_cons; [done|]. apply Hout in Hp.
      intros Hp'. apply Hp. rewrite Hs. by apply elem_of_union_r. }
    split; [constructor; [done|by rewrite <- Hg]|].
    split; [by rewrite Hs2, Hs, list_to_set_cons, (assoc_L (∪)),
              (comm_L (∪) (list_to_set out))|].
    split; [by rewrite count_choose_Choose; cbn; f_equal|].
    split; [congruence|done].
  - apply has_room_Process in Hroom. rewrite run_Process.
    pose proof (bounded_process s c hit g Hb) as Hb1.
    destruct (IH _ _ Hb1 Hroom)
      as (out & s2 & g2 & Er & Hnd & Hout & Hin & Hs2 & Hlen & Hg2 & Hb2).
    rewrite process_result_grid_size, process_result_shots in *.
    exists out, s2, g2. by rewrite count_choose_Process.
Qed.

(** The k-th [choose_target] finds k - 1 more cells shot than the session
    started with: calls that do not outnumber the cells left all find
    room. *)
Lemma count_has_room calls : ∀ s g,
  bounded s →
  (count_choose calls + size (shots s) ≤ length (board (grid_size s)))%nat →
  has_room s g calls.
Proof.
  induction calls as [|[|c hit] calls IH]; intros s g Hb Hle; [done| |].
  - rewrite count_choose_Choose in Hle.
    assert (Hrem : remaining s) by (apply unshot_remains; lia).
    destruct (choose_target_succeeds s g Hrem) as (c & s1 & g1 & E).
    apply (has_room_Choose _ _ _ _ _ _ E). split; [done|].
    pose proof (choose_target_Ok _ _ _ _ _ Hb E) as (_ & Hn & Hg & Hs & _).
    apply IH; [by eapply bounded_choose|].
    rewrite Hg, Hs, size_union, size_singleton;
      [lia|by apply disjoint_singleton_l].
  - rewrite count_choose_Process in Hle. apply has_room_Process.
    apply IH; [by apply bounded_process|].
    by rewrite process_result_grid_size, process_result_shots.
Qed.

Lemma run_app calls1 calls2 : ∀ s g out1 s1 g1 out2 s2 g2,
  run s g calls1 = Ok (out1, s1, g1) →
  run s1 g1 calls2 = Ok (out2, s2, g2) →
  run s g (calls1 ++ calls2) = Ok (out1 ++ out2, s2, g2).
Proof.
  induction calls1 as [|[|c hit] calls1 IH]; intros s g out1 s1 g1 out2 s2 g2.
  - cbn. by intros [= <- <- <-].
  - cbn [app run]. destruct (choose_target s g) as [[[c sa] ga]|e]; [|done].
    cbn. destruct (run sa ga calls1) as [[[o sb] gb]|e] eqn:E; [|done].
    cbn. intros [= <- <- <-] E2. by rewrite (IH _ _ _ _ _ _ _ _ E E2).
  - cbn [app]. rewrite !run_Process. apply IH.
Qed.

Lemma has_room_app calls1 calls2 : ∀ s g out1 s1 g1,
  run s g calls1 = Ok (out1, s1, g1) →
  has_room s g (calls1 ++ calls2) →
  has_room s g calls1 ∧ has_room s1 g1 calls2.
Proof.
  induction calls1 as [|[|c hit] calls1 IH]; intros s g out1 s1 g1.
  - cbn. by intros [= <- <- <-].
  - cbn [app run has_room].
    destruct (choose_target s g) as [[[c sa] ga]|e]; [|done].
    cbn. destruct (run sa ga calls1) as [[[o sb] gb]|e] eqn:E; [|done].
    cbn. intros [= <- <- <-] [Hrem Hroom].
    destruct (IH _ _ _ _ _ E Hroom). done.
  - cbn [app]. rewrite run_Process, !has_room_Process. apply IH.
Qed.

Lemma run_fresh d n g calls :
  has_room (new_strategy d n) g calls →
  ∃ out s' g',
    run (new_strategy d n) g calls = Ok (out, s', g') ∧
    NoDup out ∧ Forall (in_bounds n) out ∧
    shots s' = list_to_set out ∧
    length out = count_choose calls ∧
    grid_size s' = n ∧ bounded s'.
Proof.
  intros Hroom.
  assert (Hn : grid_size (new_strategy d n) = n) by by destruct d.
  assert (Hs : shots (new_strategy d n) = ∅) by by destruct d.
  destruct (run_spec calls (new_strategy d n) g (bounded_new d n) Hroom)
    as (out & s' & g' & E & Hnd & _ & Hin & Hsh & Hlen & Hg & Hb).
  rewrite Hn in *. rewrite Hs, (right_id_L ∅ (∪)) in Hsh.
  by exists out, s', g'.
Qed.

Lemma count_has_room_fresh d n g calls :
  (count_choose calls ≤ length (board n))%nat →
  has_room (new_strategy d n) g calls.
Proof.
  intros Hle. apply count_has_room; [apply bounded_new|].
  assert (Hn : grid_size (new_strategy d n) = n) by by destruct d.
  assert (Hs : shots (new_strategy d n) = ∅) by by destruct d.
  rewrite Hn, Hs, size_empty. lia.
Qed.

(** ** No coordinate is returned twice *)

(** C2.  Take any strategy instance, of any of the three classes, and any
    sequence of calls made on it since it was constructed, in which every
    [choose_target] is called while a cell of the board remains that the
    instance has not targeted.  Then every [choose_target] of the sequence
    returns, the coordinate it returns is in the instance's [shots] when it
    returns, and the coordinates returned over the whole sequence are
    pairwise distinct: the result of a call is returned neither by an
    earlier nor by a later call. *)
Theorem choose_target_never_repeats
  (d : difficulty) (n : Z) (g : Random) (before after : list call) :
  has_room (new_strategy d n) g (before ++ Choose :: after) →
  ∃ out1 s1 g1 c s2 g2 out2 s3 g3,
    run (new_strategy d n) g before = Ok (out1, s1, g1) ∧
    choose_target s1 g1 = Ok (c, s2, g2) ∧
    c ∈ shots s2 ∧
    run s2 g2 after = Ok (out2, s3, g3) ∧
    run (new_strategy d n) g (before ++ Choose :: after)
      = Ok (out1 ++ c :: out2, s3, g3) ∧
    NoDup (out1 ++ c :: out2).
Proof.
  intros Hroom.
  destruct (run_fresh d n g _ Hroom)
    as (out & s3 & g3 & E & Hnd & _).
  assert (Hroom1 : has_room (new_strategy d n) g before).
  { clear E. revert Hroom. generalize (new_strategy d n) g.
    induction before as [|[|c hit] before IH]; intros s g0; [done| |].
    - cbn [app has_room]. intros [Hrem H]. split; [done|].
      destruct (choose_target s g0) as [[[c sa] ga]|e]; [|done]. by apply IH.
    - cbn [app]. rewrite !has_room_Process. apply IH. }
  destruct (run_fresh d n g _ Hroom1)
    as (out1 & s1 & g1 & E1 & _ & _ & _ & _ & _ & Hb1).
  destruct (has_room_app _ _ _ _ _ _ _ E1 Hroom) as [_ Hroom2].
  assert (Hrem : remaining s1) by (by destruct Hroom2).
  destruct (choose_target_succeeds s1 g1 Hrem) as (c & s2 & g2 & Ec).
  apply (has_room_Choose _ _ _ _ _ _ Ec) in Hroom2 as [_ Hroom2].
  pose proof (choose_target_Ok _ _ _ _ _ Hb1 Ec) as (_ & _ & _ & Hs2 & _).
  pose proof (bounded_choose _ _ _ _ _ Hb1 Ec) as Hb2.
  destruct (run_spec after s2 g2 Hb2 Hroom2) as (out2 & s3' & g3' & E2 & _).
  assert (Eall : run (new_strategy d n) g (before ++ Choose :: after)
                 = Ok (out1 ++ c :: out2, s3', g3')).
  { apply (run_app _ _ _ _ _ _ _ _ _ _ E1).
    by rewrite (run_Choose _ _ _ _ _ _ Ec), E2. }
  rewrite E in Eall. injection Eall as -> -> ->.
  exists out1, s1, g1, c, s2, g2, out2, s3', g3'.
  split; [done|]. split; [done|]. split.
  { rewrite Hs2. apply elem_of_union_l. by apply elem_of_singleton. }
  done.
Qed.

Lemma choose_target_never_repeats_witness :
  ∃ out1 s1 g1 c s2 g2 out2 s3 g3,
    run (new_strategy medium 2) seed0 [Choose; Process (0, 0) true]
      = Ok (out1, s1, g1) ∧
    choose_target s1 g1 = Ok (c, s2, g2) ∧
    c ∈ shots s2 ∧
    run s2 g2 [Choose; Choose] = Ok (out2, s3, g3) ∧
    run (new_strategy medium 2) seed0
        ([Choose; Process (0, 0) true] ++ Choose :: [Choose; Choose])
      = Ok (out1 ++ c :: out2, s3, g3) ∧
    NoDup (out1 ++ c :: out2).
Proof.
  apply (choose_target_never_repeats medium 2 seed0
           [Choose; Process (0, 0) true] [Choose; Choose]).
  apply count_has_room_fresh. vm_compute. lia.
Defined.

(** ** Coverage of the random strategy *)

(** C3.  For every grid size N and every state of the random generator,
    N² calls of [choose_target] on a fresh [RandomShooter] all return, and
    the coordinates they return are the cells of the N × N board, each one
    exactly once: a rearrangement of the board without repetition, every
    coordinate within [0 <= row, column < N]. *)
Theorem random_shooter_covers_board (N : Z) (g : Random) :
  0 ≤ N →
  ∃ out s' g',
    run (new_strategy easy N) g (replicate (Z.to_nat (N * N)) Choose)
      = Ok (out, s', g') ∧
    length out = Z.to_nat (N * N) ∧
    NoDup out ∧
    Forall (in_bounds N) out ∧
    (∀ p, in_bounds N p → p ∈ out) ∧
    out ≡ₚ board N.
Proof.
  intros HN.
  assert (Hcells : length (board N) = Z.to_nat (N * N))
    by (rewrite length_board; lia).
  destruct (run_fresh easy N g (replicate (Z.to_nat (N * N)) Choose))
    as (out & s' & g' & E & Hnd & Hin & _ & Hlen & _).
  { apply count_has_room_fresh. rewrite count_choose_replicate. lia. }
  rewrite count_choose_replicate in Hlen.
  assert (Hperm : out ≡ₚ board N).
  { apply submseteq_length_Permutation; [|lia].
    apply NoDup_submseteq; [done|]. intros p Hp. apply elem_of_board.
    rewrite Forall_forall in Hin. auto. }
  exists out, s', g'. do 4 (split; [done|]). split; [|done].
  intros p Hp. rewrite Hperm. by apply elem_of_board.
Qed.

Lemma random_shooter_covers_board_witness :
  ∃ out s' g',
    run (new_strategy easy 3) seed0 (replicate (Z.to_nat (3 * 3)) Choose)
      = Ok (out, s', g') ∧
    length out = Z.to_nat (3 * 3) ∧
    NoDup out ∧
    Forall (in_bounds 3) out ∧
    (∀ p, in_bounds 3 p → p ∈ out) ∧
    out ≡ₚ board 3.
Proof. apply (random_shooter_covers_board 3 seed0). lia. Defined.

(** ** Queues after a hit *)

(** C4.  [SeekAndDestroy.process_result] on a hit appends to the queue the
    neighbours above, below, left and right of the coordinate that lie on
    the board, in some order, behind the entries already queued, and
    changes nothing else; on a miss it changes nothing.  On a fresh 3 × 3
    instance a hit at (1, 1) leaves the four neighbours queued. *)
Theorem seek_and_destroy_process_result
  (self : SeekAndDestroy.t) (r c : Z) (g : Random) :
  let n := SeekAndDestroy.grid_size self in
  (∃ valid,
     valid ≡ₚ filter (in_bounds n) [(r - 1, c); (r + 1, c); (r, c - 1); (r, c + 1)] ∧
     (SeekAndDestroy.process_result self (r, c) true g).1 =
       SeekAndDestroy.mk n (SeekAndDestroy.targets self ++ valid)
         (SeekAndDestroy.shots self)) ∧
  SeekAndDestroy.process_result self (r, c) false g = (self, g) ∧
  let fresh := (SeekAndDestroy.process_result (SeekAndDestroy.init 3) (1, 1) true g).1 in
  SeekAndDestroy.targets fresh ≡ₚ [(0, 1); (2, 1); (1, 0); (1, 2)] ∧
  list_to_set (SeekAndDestroy.targets fresh)
    = ({[ (0, 1); (2, 1); (1, 0); (1, 2) ]} : gset coord).
Proof.
  intros n. split; [exact (SeekAndDestroy_process_hit self (r, c) g)|].
  split; [done|].
  intros fresh.
  destruct (SeekAndDestroy_process_hit (SeekAndDestroy.init 3) (1, 1) g)
    as (valid & Hp & E).
  assert (Hq : SeekAndDestroy.targets fresh ≡ₚ [(0, 1); (2, 1); (1, 0); (1, 2)]).
  { unfold fresh. rewrite E. cbn [SeekAndDestroy.targets SeekAndDestroy.init app].
    rewrite Hp. reflexivity. }
  split; [done|]. apply set_eq. intros p.
  rewrite elem_of_list_to_set, Hq, !elem_of_cons, !elem_of_union,
    !elem_of_singleton. split; [|tauto].
  intros [?|[?|[?|[?|?%not_elem_of_nil]]]]; tauto.
Qed.

(** C5.  [StrategicGenius.process_result] on a hit switches the instance to
    targeting ([hunt_mode] false) and appends to the queue those of the
    neighbours right, left, below and above, in this order, that lie on the
    board and were not targeted.  On a fresh 4 × 4 instance a hit at (1, 1)
    queues (1,2), (1,0), (2,1), (0,1); the next four calls of
    [choose_target] return them in this order, first in first out, without
    leaving targeting; the call after these finds the queue empty, goes
    back to hunting and returns a hunting pick in the same call: an
    untargeted cell of even parity. *)
Theorem strategic_genius_phase_transition :
  (∀ (self : StrategicGenius.t) (r c : Z),
     let n := StrategicGenius.grid_size self in
     StrategicGenius.process_result self (r, c) true =
       StrategicGenius.mk n false (StrategicGenius.shots self)
         (StrategicGenius.targets self ++
          filter (λ p, in_bounds n p ∧ p ∉ StrategicGenius.shots self)
                 [(r, c + 1); (r, c - 1); (r + 1, c); (r - 1, c)])) ∧
  let s1 := StrategicGenius.process_result (StrategicGenius.init 4) (1, 1) true in
  let drained :=
    StrategicGenius.mk 4 false {[ (0, 1); (2, 1); (1, 0); (1, 2) ]} [] in
  StrategicGenius.hunt_mode s1 = false ∧
  StrategicGenius.targets s1 = [(1, 2); (1, 0); (2, 1); (0, 1)] ∧
  ∀ g : Random,
    run (Hard s1) g [Choose; Choose; Choose; Choose]
      = Ok ([(1, 2); (1, 0); (2, 1); (0, 1)], Hard drained, g) ∧
    ∃ c s' g',
      StrategicGenius.choose_target drained g = Ok (c, s', g') ∧
      StrategicGenius.hunt_mode s' = true ∧
      in_bounds 4 c ∧ (c.1 + c.2) `mod` 2 = 0 ∧
      c ∉ StrategicGenius.shots drained.
Proof.
  split; [done|]. intros s1 drained. split; [done|]. split; [done|].
  intros g. split; [by vm_compute|].
  unfold drained. rewrite StrategicGenius_targeting_eq. cbn [next_fresh].
  destruct (StrategicGenius_hunt_succeeds 4
              {[ (0, 1); (2, 1); (1, 0); (1, 2) ]} [] g) as (c & s' & g' & E).
  { exists (0, 0). split; [unfold in_bounds; cbn; lia|by vm_compute]. }
  exists c, s', g'. split; [done|].
  apply StrategicGenius_hunt_Ok in E as (Hb & Hn & -> & Hpar).
  split; [done|]. split; [done|]. split; [|done].
  apply Hpar. by vm_compute.
Qed.

(** ** Checkerboard hunting *)

Lemma checkerboard_nonempty (n : Z) (sh : gset coord) :
  (∃ p, in_bounds n p ∧ (p.1 + p.2) `mod` 2 = 0 ∧ p ∉ sh) →
  StrategicGenius.checkerboard n sh ≠ [].
Proof.
  intros (p & Hb & Hpar & Hn) E.
  assert (Hp : p ∈ StrategicGenius.checkerboard n sh).
  { apply list_elem_of_filter. split; [done|]. by apply elem_of_board. }
  rewrite E in Hp. by apply not_elem_of_nil in Hp.
Qed.

Lemma checkerboard_none (n : Z) (sh : gset coord) :
  (∀ p, in_bounds n p → (p.1 + p.2) `mod` 2 = 0 → p ∈ sh) →
  StrategicGenius.checkerboard n sh = [].
Proof.
  intros H. destruct (StrategicGenius.checkerboard n sh) as [|p l] eqn:E; [done|].
  assert (Hp : p ∈ StrategicGenius.checkerboard n sh)
    by (rewrite E; apply list_elem_of_here).
  apply list_elem_of_filter in Hp as [[Hpar Hn] Hb%elem_of_board].
  by specialize (H p Hb Hpar).
Qed.

(** C6.  A [StrategicGenius] instance that is hunting: as long as an
    untargeted cell with [(row + column) % 2 == 0] remains on the board,
    [choose_target] returns such a cell; once none remains but some cell
    is still untargeted, [choose_target] does not fail but draws from all
    untargeted cells, as [random.choice] over that pool does. *)
Theorem strategic_genius_hunts_on_checkerboard
  (self : StrategicGenius.t) (g : Random) :
  let n := StrategicGenius.grid_size self in
  let sh := StrategicGenius.shots self in
  StrategicGenius.hunt_mode self = true →
  ((∃ p, in_bounds n p ∧ (p.1 + p.2) `mod` 2 = 0 ∧ p ∉ sh) →
   ∃ c s' g',
     StrategicGenius.choose_target self g = Ok (c, s', g') ∧
     (c.1 + c.2) `mod` 2 = 0 ∧ in_bounds n c ∧ c ∉ sh) ∧
  ((∀ p, in_bounds n p → (p.1 + p.2) `mod` 2 = 0 → p ∈ sh) →
   (∃ p, in_bounds n p ∧ p ∉ sh) →
   ∃ c g',
     choice (unshot n sh) g = Ok (c, g') ∧
     StrategicGenius.choose_target self g =
       Ok (c, StrategicGenius.mk n true ({[c]} ∪ sh)
                (StrategicGenius.targets self), g') ∧
     in_bounds n c ∧ c ∉ sh).
Proof.
  destruct self as [n h sh q].
  cbn [StrategicGenius.grid_size StrategicGenius.shots
       StrategicGenius.hunt_mode StrategicGenius.targets].
  intros ->. split.
  - intros Hex.
    destruct (StrategicGenius_hunt_succeeds n sh q g) as (c & s' & g' & E).
    { destruct Hex as (p & ? & _ & ?). by exists p. }
    exists c, s', g'. rewrite StrategicGenius_hunting_eq. split; [done|].
    apply StrategicGenius_hunt_Ok in E as (? & ? & _ & Hpar).
    split; [|done]. by apply Hpar, checkerboard_nonempty.
  - intros Hnone Hex.
    destruct (choice_nonempty (unshot n sh) g (unshot_nonempty _ _ Hex))
      as (c & g' & E & Hc).
    exists c, g'. split; [done|]. split.
    + rewrite StrategicGenius_hunting_eq. cbn.
      by rewrite (checkerboard_none _ _ Hnone), E.
    + by apply elem_of_unshot.
Qed.

Lemma strategic_genius_hunts_on_checkerboard_witness :
  (∃ c s' g',
     StrategicGenius.choose_target (StrategicGenius.init 4) seed0
       = Ok (c, s', g') ∧
     (c.1 + c.2) `mod` 2 = 0 ∧ in_bounds 4 c ∧ c ∉ (∅ : gset coord)) ∧
  (∃ c g',
     choice (unshot 2 {[ (0, 0); (1, 1) ]}) seed0 = Ok (c, g') ∧
     StrategicGenius.choose_target
       (StrategicGenius.mk 2 true {[ (0, 0); (1, 1) ]} []) seed0 =
       Ok (c, StrategicGenius.mk 2 true ({[c]} ∪ {[ (0, 0); (1, 1) ]}) [], g') ∧
     in_bounds 2 c ∧ c ∉ ({[ (0, 0); (1, 1) ]} : gset coord)).
Proof.
  split.
  - apply (proj1 (strategic_genius_hunts_on_checkerboard
                    (StrategicGenius.init 4) seed0 eq_refl)).
    exists (0, 0). cbn. unfold in_bounds. cbn.
    split; [lia|]. split; [reflexivity|]. apply not_elem_of_empty.
  - refine (proj2 (strategic_genius_hunts_on_checkerboard
                     (StrategicGenius.mk 2 true {[ (0, 0); (1, 1) ]} [])
                     seed0 eq_refl) _ _).
    + cbn. intros [r c] [Hr Hc]. cbn in *.
      assert (Hcase : (r = 0 ∨ r = 1) ∧ (c = 0 ∨ c = 1)) by lia.
      destruct Hcase as [[-> | ->] [-> | ->]]; cbn; intros Hpar;
        try discriminate Hpar.
      * apply elem_of_union_l. by apply elem_of_singleton.
      * apply elem_of_union_r. by apply elem_of_singleton.
    + exists (0, 1). cbn. unfold in_bounds. cbn. split; [lia|]. by vm_compute.
Defined.

(** ** Ships and fleets *)

Lemma check_hit_on (ship : Ship.t) (target : coord) :
  target ∈ Ship.positions ship →
  Ship.check_hit ship target =
    (true, Ship.mk (Ship.size ship) (Ship.positions ship)
             ({[target]} ∪ Ship.hits ship)).
Proof. intros H. unfold Ship.check_hit. by rewrite decide_True. Qed.

Lemma check_hit_off (ship : Ship.t) (target : coord) :
  target ∉ Ship.positions ship → Ship.check_hit ship target = (false, ship).
Proof. intros H. unfold Ship.check_hit. by rewrite decide_False. Qed.

Lemma all_sunk_forall (fleet : Player.t) :
  Player.all_sunk fleet = true ↔
  ∀ s, s ∈ Player.ships fleet → Ship.is_sunk s = true.
Proof.
  unfold Player.all_sunk. rewrite forallb_forall.
  split; intros H s Hs; apply H; by apply list_elem_of_In.
Qed.

(** C7.  [check_hit] returns true and adds the target to [hits] when the
    target is one of the ship's positions, and returns false and leaves the
    ship as it is otherwise; [is_sunk] holds exactly when the number of
    hits equals [size]; [all_sunk] holds exactly when every ship of the
    fleet is sunk.  The ship of size 2 at (0,0), (0,1): a shot at (0,0)
    hits and does not sink it, a shot at (0,1) hits and sinks it, a shot at
    (1,1) misses and leaves the hits as they are. *)
Theorem ship_check_hit_and_sunk :
  (∀ (ship : Ship.t) (target : coord),
     (target ∈ Ship.positions ship →
      Ship.check_hit ship target =
        (true, Ship.mk (Ship.size ship) (Ship.positions ship)
                 ({[target]} ∪ Ship.hits ship))) ∧
     (target ∉ Ship.positions ship →
      Ship.check_hit ship target = (false, ship)) ∧
     (Ship.is_sunk ship = true ↔
      Z.of_nat (size (Ship.hits ship)) = Ship.size ship)) ∧
  (∀ fleet : Player.t,
     Player.all_sunk fleet = true ↔
     ∀ s, s ∈ Player.ships fleet → Ship.is_sunk s = true) ∧
  let ship0 := Ship.init 2 [(0, 0); (0, 1)] in
  let ship1 := Ship.mk 2 [(0, 0); (0, 1)] {[ (0, 0) ]} in
  let ship2 := Ship.mk 2 [(0, 0); (0, 1)] {[ (0, 1); (0, 0) ]} in
  Ship.check_hit ship0 (0, 0) = (true, ship1) ∧ Ship.is_sunk ship1 = false ∧
  Ship.check_hit ship1 (0, 1) = (true, ship2) ∧ Ship.is_sunk ship2 = true ∧
  Ship.check_hit ship2 (1, 1) = (false, ship2).
Proof.
  split.
  { intros ship target. split; [apply check_hit_on|].
    split; [apply check_hit_off|].
    unfold Ship.is_sunk. apply bool_decide_eq_true. }
  split; [apply all_sunk_forall|].
  intros ship0 ship1 ship2. by vm_compute.
Qed.

(** C10.  Calling [check_hit] a second time with the same target returns
    the same boolean and leaves the ship as the first call left it, so that
    [is_sunk] answers the same; a position that was hit before is reported
    as a hit again and the ship, the number of its hits included, stays as
    it is. *)
Theorem check_hit_idempotent (ship : Ship.t) (target : coord) :
  let once := Ship.check_hit ship target in
  let twice := Ship.check_hit once.2 target in
  twice.1 = once.1 ∧ twice.2 = once.2 ∧
  Ship.is_sunk twice.2 = Ship.is_sunk once.2 ∧
  (target ∈ Ship.positions ship → target ∈ Ship.hits ship →
   once = (true, ship)).
Proof.
  intros once twice. unfold twice, once.
  destruct (decide (target ∈ Ship.positions ship)) as [Hin|Hout].
  - rewrite (check_hit_on ship target Hin). cbn [snd fst].
    rewrite check_hit_on by done. cbn.
    rewrite (assoc_L (∪)), (idemp_L (∪)).
    do 3 (split; [done|]). intros _ Hh. destruct ship as [sz pos hits].
    cbn in *. do 2 f_equal. apply subseteq_union_1_L.
    by apply singleton_subseteq_l.
  - rewrite (check_hit_off ship target Hout). cbn [snd fst].
    rewrite check_hit_off by done. cbn. by do 3 (split; [done|]).
Qed.

Lemma check_hit_idempotent_witness :
  Ship.check_hit (Ship.mk 2 [(0, 0); (0, 1)] {[ (0, 0) ]}) (0, 0)
  = (true, Ship.mk 2 [(0, 0); (0, 1)] {[ (0, 0) ]}).
Proof.
  refine (proj2 (proj2 (proj2 (check_hit_idempotent
            (Ship.mk 2 [(0, 0); (0, 1)] {[ (0, 0) ]}) (0, 0)))) _ _).
  - apply list_elem_of_here.
  - cbn [Ship.hits]. by apply elem_of_singleton.
Defined.

(** ** Placement *)

Lemma row_cells_in_bounds (n r c size : Z) :
  in_bounds n (r, c) →
  Forall (in_bounds n) ((λ i, (r, c + i)) <$> range size) ↔ c + size ≤ n.
Proof.
  intros [Hr Hc]. cbn in *. rewrite Forall_fmap, Forall_forall. split.
  - intros H. destruct (decide (c + size ≤ n)) as [|Hgt]; [done|].
    assert (Hi : size - 1 ∈ range size) by (apply elem_of_range; lia).
    apply H in Hi as [_ Hi]. cbn in Hi. lia.
  - intros Hle i Hi%elem_of_range. split; cbn; lia.
Qed.

Lemma column_cells_in_bounds (n r c size : Z) :
  in_bounds n (r, c) →
  Forall (in_bounds n) ((λ i, (r + i, c)) <$> range size) ↔ r + size ≤ n.
Proof.
  intros [Hr Hc]. cbn in *. rewrite Forall_fmap, Forall_forall. split.
  - intros H. destruct (decide (r + size ≤ n)) as [|Hgt]; [done|].
    assert (Hi : size - 1 ∈ range size) by (apply elem_of_range; lia).
    apply H in Hi as [Hi _]. cbn in Hi. lia.
  - intros Hle i Hi%elem_of_range. split; cbn; lia.
Qed.

(** C8.  For every start coordinate (r,c), length and orientation, a
    coordinate being a cell of the board (0 ≤ r, c < grid_size), which is
    what [_parse] and [randrange grid_size] hand to [_calc_positions]: a
    horizontal placement computes the cells (r,c), (r,c+1), ...,
    (r,c+length-1) and a vertical one the cells (r,c), (r+1,c), ...,
    (r+length-1,c); these cells are returned when all of them lie on the
    board, and [None] is returned whenever one of them falls outside
    [0, grid_size) in either axis.  On a 4 × 4 board, length 2 from (3,3)
    horizontally is rejected and length 3 from (0,0) vertically is
    (0,0), (1,0), (2,0). *)
Theorem calc_positions_from_board_start
  (self : Player.t) (r c size : Z) (orient : string) :
  let n := Grid.grid_size (Player.grid self) in
  let cells :=
    if decide (orient = "h"%string)
    then (λ i, (r, c + i)) <$> range size
    else (λ i, (r + i, c)) <$> range size in
  in_bounds n (r, c) →
  (Forall (in_bounds n) cells →
   Player._calc_positions self (r, c) size orient = Some cells) ∧
  (¬ Forall (in_bounds n) cells →
   Player._calc_positions self (r, c) size orient = None) ∧
  Player._calc_positions (Player.mk (Grid.init 4) []) (3, 3) 2 "h" = None ∧
  Player._calc_positions (Player.mk (Grid.init 4) []) (0, 0) 3 "v"
    = Some [(0, 0); (1, 0); (2, 0)].
Proof.
  intros n cells Hstart. unfold cells, Player._calc_positions. fold n.
  destruct (decide (orient = "h"%string)) as [->|Hv].
  - rewrite (row_cells_in_bounds _ _ _ _ Hstart).
    split; [|split; [|done]]; intros H; case_decide; (done || lia).
  - rewrite (column_cells_in_bounds _ _ _ _ Hstart).
    split; [|split; [|done]]; intros H; case_decide; (done || lia).
Qed.

Lemma calc_positions_from_board_start_witness :
  Player._calc_positions (Player.mk (Grid.init 5) []) (1, 2) 3 "h"
    = Some [(1, 2); (1, 3); (1, 4)] ∧
  Player._calc_positions (Player.mk (Grid.init 5) []) (3, 2) 3 "v" = None.
Proof.
  split.
  - refine (proj1 (calc_positions_from_board_start
              (Player.mk (Grid.init 5) []) 1 2 3 "h" _) _).
    + unfold in_bounds. cbn. lia.
    + cbn. repeat constructor; cbn; lia.
  - refine (proj1 (proj2 (calc_positions_from_board_start
              (Player.mk (Grid.init 5) []) 3 2 3 "v" _)) _).
    + unfold in_bounds. cbn. lia.
    + cbn. intros H. apply Forall_cons_1 in H as [_ H].
      apply Forall_cons_1 in H as [_ H]. apply Forall_inv in H as [H _].
      cbn in H. lia.
Defined.

(** ** Attack resolution *)

Lemma any_check_hit_true (ships : list Ship.t) (target : coord) :
  (any_check_hit ships target).1 = true ↔
  ∃ s, s ∈ ships ∧ target ∈ Ship.positions s.
Proof.
  induction ships as [|s ships IH]; cbn.
  - split; [done|]. by intros (s & Hs%not_elem_of_nil & _).
  - unfold Ship.check_hit. case_decide as Hin.
    + cbn. split; [|done]. intros _. exists s. split; [apply list_elem_of_here|done].
    + destruct (any_check_hit ships target) as [h rest]. cbn in *.
      rewrite IH. split.
      * intros (s' & ? & ?). exists s'. split; [by apply list_elem_of_further|done].
      * intros (s' & [->|?]%elem_of_cons & ?); [done|]. by exists s'.
Qed.

Lemma Grid_init_lookup (n : Z) (p : coord) :
  Grid.cells (Grid.init n) !! p =
  if decide (in_bounds n p) then Some " "%string else None.
Proof.
  cbn. case_decide as Hp.
  - apply elem_of_list_to_map_1.
    + rewrite <- list_fmap_compose. rewrite (list_fmap_ext _ id (board n));
        [|done]. rewrite list_fmap_id. apply NoDup_board.
    + apply list_elem_of_fmap. exists p. split; [done|]. by apply elem_of_board.
  - apply not_elem_of_list_to_map_1.
    rewrite <- list_fmap_compose. rewrite (list_fmap_ext _ id (board n));
      [|done]. rewrite list_fmap_id. by rewrite elem_of_board.
Qed.

Lemma new_game_consistent d n own enemy :
  game_consistent (new_game d n own enemy).
Proof.
  assert (Hn : grid_size (new_strategy d n) = n) by by destruct d.
  split; [apply bounded_new|]. cbn [new_game Game.pc_ctrl Game.player Player.grid].
  split.
  - intros p Hp. rewrite Hn in Hp. rewrite Grid_init_lookup.
    by rewrite decide_True.
  - intros p v. rewrite Grid_init_lookup. case_decide; [|done].
    by intros [= <-].
Qed.

Lemma Grid_update_changed (grid : Grid.t) (target p : coord) (hit : bool) :
  Grid.cells (Grid.update grid target hit) !! p ≠ Grid.cells grid !! p →
  p = target ∧
  Grid.cells (Grid.update grid target hit) !! p
    = Some (if hit then "X" else "O")%string.
Proof.
  cbn. destruct (decide (target = p)) as [->|Hne].
  - rewrite lookup_insert_eq. done.
  - rewrite lookup_insert_ne by done. done.
Qed.

Lemma ai_turn_Ok (self : Game.t) (g : Random) ctl self' g' :
  Game.ai_turn self g = Ok (ctl, self', g') →
  ∃ c ctrl g1,
    choose_target (Game.pc_ctrl self) g = Ok (c, ctrl, g1) ∧
    Game.computer self' = Game.computer self ∧
    Player.grid (Game.player self') =
      Grid.update (Player.grid (Game.player self)) c
        (any_check_hit (Player.ships (Game.player self)) c).1 ∧
    Game.pc_ctrl self' =
      (process_result ctrl c
         (any_check_hit (Player.ships (Game.player self)) c).1 g1).1.
Proof.
  unfold Game.ai_turn, mbind, result_bind.
  destruct (choose_target (Game.pc_ctrl self) g) as [[[c ctrl] g1]|e]; [|done].
  destruct (any_check_hit (Player.ships (Game.player self)) c)
    as [hit ships'] eqn:Ea.
  destruct (process_result ctrl c hit g1) as [ctrl' g2] eqn:Ep.
  intros H. exists c, ctrl, g1. split; [done|].
  rewrite Ea. cbn [fst]. rewrite Ep. cbn [fst].
  case_decide; [|done].
  destruct (Player.all_sunk _); injection H as <- <- <-; done.
Qed.

Lemma ai_turn_consistent (self : Game.t) (g : Random) ctl self' g' :
  game_consistent self →
  Game.ai_turn self g = Ok (ctl, self', g') →
  game_consistent self' ∧
  ∀ p, Grid.cells (Player.grid (Game.player self')) !! p
         ≠ Grid.cells (Player.grid (Game.player self)) !! p →
       Grid.cells (Player.grid (Game.player self)) !! p = Some " "%string.
Proof.
  intros (Hb & Hdom & Hshot) H.
  apply ai_turn_Ok in H as (c & ctrl & g1 & Ec & _ & Hgrid & Hctrl).
  pose proof (choose_target_Ok _ _ _ _ _ Hb Ec) as (Hc & Hn & Hg & Hs & _).
  pose proof (bounded_choose _ _ _ _ _ Hb Ec) as Hb1.
  assert (Hblank : Grid.cells (Player.grid (Game.player self)) !! c
                   = Some " "%string).
  { destruct (Hdom c Hc) as [v Hv]. rewrite Hv. f_equal.
    destruct (decide (v = " "%string)) as [|Hne]; [done|].
    by specialize (Hshot c v Hv Hne). }
  split.
  - unfold game_consistent. rewrite Hgrid, Hctrl.
    rewrite process_result_grid_size, process_result_shots, Hg, Hs.
    split; [by apply bounded_process|]. cbn [Grid.update Grid.cells]. split.
    + intros p Hp. destruct (decide (c = p)) as [->|Hne].
      * rewrite lookup_insert_eq. eauto.
      * rewrite lookup_insert_ne by done. auto.
    + intros p v. destruct (decide (c = p)) as [->|Hne].
      * intros _ _. apply elem_of_union_l. by apply elem_of_singleton.
      * rewrite lookup_insert_ne by done. intros Hv Hnb.
        apply elem_of_union_r. eauto.
  - intros p. rewrite Hgrid. intros [-> _]%Grid_update_changed. done.
Qed.

Lemma round_Ok (game : Game.t) (inp : Game.input) (g : Random) ctl game' g' :
  Game.round game inp g = Ok (ctl, game', g') →
  (Game.computer game' = Game.computer game ∧
   Game.player game' = Game.player game ∧
   Game.pc_ctrl game' = Game.pc_ctrl game) ∨
  ∃ move tgt,
    inp = Game.Move move (Some tgt) ∧
    Grid.cells (Player.grid (Game.computer game)) !! tgt = Some " "%string ∧
    Game.computer game' =
      Player.mk
        (Grid.update (Player.grid (Game.computer game)) tgt
           (any_check_hit (Player.ships (Game.computer game)) tgt).1)
        (any_check_hit (Player.ships (Game.computer game)) tgt).2 ∧
    ((Game.player game' = Game.player game ∧
      Game.pc_ctrl game' = Game.pc_ctrl game) ∨
     ∃ attacked,
       Game.player attacked = Game.player game ∧
       Game.pc_ctrl attacked = Game.pc_ctrl game ∧
       Game.computer attacked = Game.computer game' ∧
       Game.ai_turn attacked g = Ok (ctl, game', g')).
Proof.
  unfold Game.round. destruct inp as [|move [tgt|]].
  - intros [= <- <- <-]. by left.
  - cbn [Game.player Game.computer Game.pc_ctrl Game.grid_size Game.reports].
    destruct (Grid.cells (Player.grid (Game.computer game)) !! tgt)
      as [cell|] eqn:Ecell; [|done].
    case_decide as Hcell.
    + intros [= <- <- <-]. by left.
    + subst cell.
      destruct (any_check_hit (Player.ships (Game.computer game)) tgt)
        as [hit ships'] eqn:Ea.
      intros H. right. exists move, tgt. split; [done|]. split; [done|].
      rewrite Ea. cbn [fst snd].
      destruct (Player.all_sunk _).
      * injection H as <- <- <-. cbn. split; [done|]. by left.
      * pose proof (ai_turn_Ok _ _ _ _ _ H) as (_ & _ & _ & _ & Hc & _).
        cbn in Hc. split; [done|]. right.
        eexists; split; [|split; [|split; [|exact H]]]; cbn; [done|done|by rewrite Hc].
  - intros [= <- <- <-]. by left.
Qed.

(** C9.  In a round of [Game.play]: a move at a coordinate of the enemy
    board that is no longer blank is answered with a report and nothing
    else, the round returns and the loop continues, the enemy fleet with
    its hit sets and the enemy board stay as they are, and the computer
    does not move.  Whenever a round changes a cell of a board, on either
    side, that cell was blank before, that is, not attacked yet; on the
    enemy board it is the coordinate of the move, and it becomes ['X'] when
    an enemy ship occupies it and ['O'] otherwise.  For the computer's side
    this rests on the strategy's memory, which [__init__] and every round
    keep in step with the human's board. *)
Theorem attack_updates_only_fresh_cells
  (game : Game.t) (inp : Game.input) (g : Random) :
  let enemy_cells (x : Game.t) := Grid.cells (Player.grid (Game.computer x)) in
  let own_cells (x : Game.t) := Grid.cells (Player.grid (Game.player x)) in
  (∀ move tgt cell,
     inp = Game.Move move (Some tgt) →
     enemy_cells game !! tgt = Some cell → cell ≠ " "%string →
     Game.round game inp g =
       Ok (Game.Continue,
           Game.mk (Game.player game) (Game.computer game)
             (Game.pc_ctrl game) (Game.grid_size game)
             [Game.AlreadyFiredAt move], g)) ∧
  (∀ ctl game' g',
     Game.round game inp g = Ok (ctl, game', g') →
     (∀ p, enemy_cells game' !! p ≠ enemy_cells game !! p →
        enemy_cells game !! p = Some " "%string ∧
        (∃ move, inp = Game.Move move (Some p)) ∧
        ∃ hit : bool,
          enemy_cells game' !! p = Some (if hit then "X" else "O")%string ∧
          (hit = true ↔
           ∃ s, s ∈ Player.ships (Game.computer game) ∧
                p ∈ Ship.positions s)) ∧
     (game_consistent game →
        game_consistent game' ∧
        ∀ p, own_cells game' !! p ≠ own_cells game !! p →
             own_cells game !! p = Some " "%string)).
Proof.
  intros enemy_cells own_cells. split.
  - intros move tgt cell -> Hcell Hne. unfold enemy_cells in Hcell.
    unfold Game.round.
    cbn [Game.player Game.computer Game.pc_ctrl Game.grid_size Game.reports].
    rewrite Hcell. by rewrite decide_True.
  - intros ctl game' g' H. unfold enemy_cells, own_cells.
    apply round_Ok in H
      as [(Hc & Hp & Hs)|(move & tgt & -> & Hblank & Hc & Hai)].
    + split; [by rewrite Hc|]. intros Hk. split; [|by rewrite Hp].
      unfold game_consistent. by rewrite Hp, Hs.
    + split.
      * intros p. rewrite Hc. cbn [Player.grid].
        intros [-> Hnew]%Grid_update_changed.
        split; [done|]. split; [by exists move|].
        eexists. split; [exact Hnew|]. apply any_check_hit_true.
      * intros Hk. destruct Hai as [[Hp Hs]|(attacked & Hp & Hs & _ & Hai)].
        { split; [|by rewrite Hp]. unfold game_consistent. by rewrite Hp, Hs. }
        assert (Hk' : game_consistent attacked)
          by (unfold game_consistent; by rewrite Hp, Hs).
        destruct (ai_turn_consistent _ _ _ _ _ Hk' Hai) as [Hk2 Hfresh].
        split; [done|]. by rewrite <- Hp.
Qed.

Lemma attack_updates_only_fresh_cells_witness :
  Game.round demo_game_fired (Game.Move "A1" (Some (0, 0))) seed0 =
    Ok (Game.Continue,
        Game.mk (Game.player demo_game_fired) (Game.computer demo_game_fired)
          (Game.pc_ctrl demo_game_fired) (Game.grid_size demo_game_fired)
          [Game.AlreadyFiredAt "A1"], seed0) ∧
  match Game.round demo_game (Game.Move "A1" (Some (0, 0))) seed0 with
  | Ok (_, game', _) =>
      game_consistent game' ∧
      ∀ p, Grid.cells (Player.grid (Game.player game')) !! p
             ≠ Grid.cells (Player.grid (Game.player demo_game)) !! p →
           Grid.cells (Player.grid (Game.player demo_game)) !! p
             = Some " "%string
  | Raise _ => False
  end.
Proof.
  split.
  - refine (proj1 (attack_updates_only_fresh_cells demo_game_fired
              (Game.Move "A1" (Some (0, 0))) seed0)
              "A1"%string (0, 0) "O"%string eq_refl eq_refl _).
    discriminate.
  - destruct (Game.round demo_game (Game.Move "A1" (Some (0, 0))) seed0)
      as [[[ctl game'] g']|e] eqn:E.
    + refine (proj2 (proj2 (attack_updates_only_fresh_cells demo_game
                (Game.Move "A1" (Some (0, 0))) seed0) ctl game' g' E) _).
      apply new_game_consistent.
    + vm_compute in E. discriminate E.
Defined.

(** * Further properties of the code *)

(** ** Targets lie on the board *)

(** X1.  Whatever state an instance has been brought to by its own methods,
    the coordinate [choose_target] returns is a cell of the instance's
    board, and the instance's board size is never changed. *)
Theorem choose_target_on_board (s : strategy) (g : Random) c s' g' :
  reachable s →
  choose_target s g = Ok (c, s', g') →
  in_bounds (grid_size s) c ∧ grid_size s' = grid_size s.
Proof.
  intros Hr H. apply reachable_bounded in Hr.
  by pose proof (choose_target_Ok _ _ _ _ _ Hr H) as (? & _ & ? & _).
Qed.

Lemma choose_target_on_board_witness :
  in_bounds (grid_size (new_strategy hard 2)) (0, 0) ∧
  grid_size (Hard (StrategicGenius.mk 2 true {[ (0, 0) ]} []))
    = grid_size (new_strategy hard 2).
Proof.
  apply (choose_target_on_board (new_strategy hard 2)
           (mkRandom (λ _, 0%nat) 0) (0, 0)
           (Hard (StrategicGenius.mk 2 true {[ (0, 0) ]} []))
           (mkRandom (λ _, 0%nat) 1)).
  - apply reachable_new.
  - by vm_compute.
Defined.

(** ** Every strategy covers the board *)

(** X2.  For each of the three classes: a session on a fresh instance with
    exactly N² calls of [choose_target], with any reports of hits and
    misses in between, runs to its end; the coordinates returned are the
    cells of the N × N board, each once; after it every cell is in [shots]
    and one more [choose_target] raises IndexError. *)
Theorem every_strategy_covers_board
  (d : difficulty) (N : Z) (g : Random) (calls : list call) :
  0 ≤ N →
  count_choose calls = Z.to_nat (N * N) →
  ∃ out s' g',
    run (new_strategy d N) g calls = Ok (out, s', g') ∧
    out ≡ₚ board N ∧
    exhausted s' ∧
    ∀ g2, choose_target s' g2 = Raise IndexError.
Proof.
  intros HN Hcount.
  assert (Hcells : length (board N) = Z.to_nat (N * N))
    by (rewrite length_board; lia).
  destruct (run_fresh d N g calls)
    as (out & s' & g' & E & Hnd & Hin & Hs & Hlen & Hg & Hb).
  { apply count_has_room_fresh. lia. }
  assert (Hperm : out ≡ₚ board N).
  { apply submseteq_length_Permutation; [|lia].
    apply NoDup_submseteq; [done|]. intros p Hp. apply elem_of_board.
    rewrite Forall_forall in Hin. auto. }
  assert (Hx : exhausted s').
  { intros p Hp. rewrite Hg in Hp. rewrite Hs.
    apply elem_of_list_to_set. rewrite Hperm. by apply elem_of_board. }
  exists out, s', g'. do 3 (split; [done|]).
  intros g2. by apply choose_target_exhausted.
Qed.

Lemma every_strategy_covers_board_witness :
  ∃ out s' g',
    run (new_strategy medium 2) seed0
      [Choose; Process (0, 0) true; Choose; Choose; Process (1, 1) false;
       Choose] = Ok (out, s', g') ∧
    out ≡ₚ board 2 ∧
    exhausted s' ∧
    ∀ g2, choose_target s' g2 = Raise IndexError.
Proof.
  apply (every_strategy_covers_board medium 2 seed0); [lia|reflexivity].
Defined.

(** ** Queue discipline *)

Lemma next_fresh_skip (done cands : list coord) (sh : gset coord) :
  Forall (λ p, p ∈ sh) done →
  next_fresh (done ++ cands) sh = next_fresh cands sh.
Proof.
  induction 1 as [|p done Hp _ IH]; [done|].
  cbn. by rewrite decide_False by (by intros Hn).
Qed.

Lemma next_fresh_first (c : coord) (rest : list coord) (sh : gset coord) :
  c ∉ sh → next_fresh (c :: rest) sh = Some (c, rest).
Proof. intros Hc. cbn. by rewrite decide_True. Qed.

(** X3.  [SeekAndDestroy] works its queue last in, first out: the entries at
    the end of the queue that were shot in the meantime are dropped, the
    last entry not shot yet is returned and recorded, the entries in front
    of it stay queued, and no random draw is made. *)
Theorem seek_and_destroy_last_in_first_out
  (n : Z) (sh : gset coord) (front stale : list coord) (c : coord)
  (g : Random) :
  c ∉ sh →
  Forall (λ p, p ∈ sh) stale →
  SeekAndDestroy.choose_target
    (SeekAndDestroy.mk n (front ++ c :: stale) sh) g
  = Ok (c, SeekAndDestroy.mk n front ({[c]} ∪ sh), g).
Proof.
  intros Hc Hstale. unfold SeekAndDestroy.choose_target.
  cbn [SeekAndDestroy.targets SeekAndDestroy.shots SeekAndDestroy.grid_size].
  rewrite reverse_app, reverse_cons, <- (assoc_L (++)).
  rewrite next_fresh_skip by (by apply Forall_reverse).
  cbn [app]. rewrite next_fresh_first by done.
  by rewrite reverse_involutive.
Qed.

Lemma seek_and_destroy_last_in_first_out_witness :
  SeekAndDestroy.choose_target
    (SeekAndDestroy.mk 3 ([(0, 1); (2, 1)] ++ (1, 0) :: [(1, 2)])
       {[ (1, 1); (1, 2) ]}) seed0
  = Ok ((1, 0),
        SeekAndDestroy.mk 3 [(0, 1); (2, 1)] ({[ (1, 0) ]} ∪ {[ (1, 1); (1, 2) ]}),
        seed0).
Proof.
  apply (seek_and_destroy_last_in_first_out 3 {[ (1, 1); (1, 2) ]}
           [(0, 1); (2, 1)] [(1, 2)] (1, 0) seed0).
  - by vm_compute.
  - apply Forall_cons. split; [by vm_compute|constructor].
Defined.

Lemma strategic_genius_first_in_first_out_core
  (n : Z) (sh : gset coord) (stale behind : list coord) (c : coord)
  (g : Random) :
  c ∉ sh →
  Forall (λ p, p ∈ sh) stale →
  StrategicGenius.choose_target
    (StrategicGenius.mk n false sh (stale ++ c :: behind)) g
  = Ok (c, StrategicGenius.mk n false ({[c]} ∪ sh) behind, g).
Proof.
  intros Hc Hstale. rewrite StrategicGenius_targeting_eq.
  by rewrite next_fresh_skip, next_fresh_first.
Qed.

(** X4.  [StrategicGenius] in targeting mode works its queue first in, first
    out: the entries at the front that were shot in the meantime are
    dropped, the first entry not shot yet is returned and recorded, the
    entries behind it stay queued, the instance stays in targeting mode,
    and no random draw is made. *)
Theorem strategic_genius_first_in_first_out
  (n : Z) (sh : gset coord) (stale behind : list coord) (c : coord)
  (g : Random) :
  c ∉ sh →
  Forall (λ p, p ∈ sh) stale →
  StrategicGenius.choose_target
    (StrategicGenius.mk n false sh (stale ++ c :: behind)) g
  = Ok (c, StrategicGenius.mk n false ({[c]} ∪ sh) behind, g).
Proof. apply strategic_genius_first_in_first_out_core. Qed.

Lemma strategic_genius_first_in_first_out_witness :
  StrategicGenius.choose_target
    (StrategicGenius.mk 4 false {[ (1, 1); (1, 2) ]}
       ([(1, 2)] ++ (1, 0) :: [(2, 1); (0, 1)])) seed0
  = Ok ((1, 0),
        StrategicGenius.mk 4 false ({[ (1, 0) ]} ∪ {[ (1, 1); (1, 2) ]})
          [(2, 1); (0, 1)], seed0).
Proof.
  apply (strategic_genius_first_in_first_out 4 {[ (1, 1); (1, 2) ]}
           [(1, 2)] [(2, 1); (0, 1)] (1, 0) seed0).
  - by vm_compute.
  - apply Forall_cons. split; [by vm_compute|constructor].
Defined.

(** ** The shot after a hit *)

Lemma next_fresh_app_Some (l1 l2 : list coord) (sh : gset coord) :
  (∃ p, p ∈ l1 ∧ p ∉ sh) →
  ∃ c rest, next_fresh (l1 ++ l2) sh = Some (c, rest) ∧ c ∈ l1 ∧ c ∉ sh.
Proof.
  induction l1 as [|a l1 IH]; intros (p & Hp & Hn).
  - by apply not_elem_of_nil in Hp.
  - cbn. case_decide as Ha.
    + exists a, (l1 ++ l2). split; [done|]. split; [apply list_elem_of_here|done].
    + apply elem_of_cons in Hp as [->|Hp]; [done|].
      destruct IH as (c & rest & E & Hc & Hcn); [by exists p|].
      exists c, rest. split; [done|]. split; [by apply list_elem_of_further|done].
Qed.

(** X5.  [SeekAndDestroy] follows up a hit: when a hit at (r, c) is reported
    and one of the four neighbours lies on the board and was not targeted,
    the next [choose_target] returns such a neighbour, whatever was queued
    before, and makes no random draw. *)
Theorem seek_and_destroy_follows_hit
  (self : SeekAndDestroy.t) (r c : Z) (g : Random) :
  let n := SeekAndDestroy.grid_size self in
  let around := [(r - 1, c); (r + 1, c); (r, c - 1); (r, c + 1)] in
  let told := SeekAndDestroy.process_result self (r, c) true g in
  (∃ p, p ∈ around ∧ in_bounds n p ∧ p ∉ SeekAndDestroy.shots self) →
  ∃ p s',
    SeekAndDestroy.choose_target told.1 told.2 = Ok (p, s', told.2) ∧
    p ∈ around ∧ in_bounds n p ∧ p ∉ SeekAndDestroy.shots self.
Proof.
  intros n around told (p & Hp & Hb & Hn).
  destruct (SeekAndDestroy_process_hit self (r, c) g) as (valid & Hperm & E).
  fold told in E. unfold SeekAndDestroy.choose_target. rewrite E.
  cbn [SeekAndDestroy.targets SeekAndDestroy.shots SeekAndDestroy.grid_size].
  rewrite reverse_app.
  destruct (next_fresh_app_Some (reverse valid)
              (reverse (SeekAndDestroy.targets self))
              (SeekAndDestroy.shots self)) as (q & rest & -> & Hq & Hqn).
  { exists p. split; [|done]. rewrite elem_of_reverse, Hperm.
    apply list_elem_of_filter. by split. }
  exists q, (SeekAndDestroy.mk n (reverse rest)
               ({[q]} ∪ SeekAndDestroy.shots self)).
  split; [done|].
  rewrite elem_of_reverse, Hperm in Hq.
  apply list_elem_of_filter in Hq as [? ?]. done.
Qed.

Lemma seek_and_destroy_follows_hit_witness :
  ∃ p s',
    SeekAndDestroy.choose_target
      (SeekAndDestroy.process_result (SeekAndDestroy.init 3) (0, 0) true seed0).1
      (SeekAndDestroy.process_result (SeekAndDestroy.init 3) (0, 0) true seed0).2
    = Ok (p, s',
          (SeekAndDestroy.process_result (SeekAndDestroy.init 3) (0, 0) true
             seed0).2) ∧
    p ∈ [(0 - 1, 0); (0 + 1, 0); (0, 0 - 1); (0, 0 + 1)] ∧
    in_bounds 3 p ∧ p ∉ (∅ : gset coord).
Proof.
  apply (seek_and_destroy_follows_hit (SeekAndDestroy.init 3) 0 0 seed0).
  exists (1, 0). split; [by apply list_elem_of_further, list_elem_of_here|].
  split; [unfold in_bounds; cbn; lia|apply not_elem_of_empty].
Defined.

(** X6.  [StrategicGenius] follows up a hit: when a hit at (r, c) is reported
    while nothing fresh is queued (as after hunting), the next
    [choose_target] returns the first of the neighbours right, left, below,
    above that lies on the board and was not targeted, keeps the remaining
    ones queued in that order, stays in targeting mode and makes no random
    draw. *)
Theorem strategic_genius_follows_hit
  (self : StrategicGenius.t) (r c : Z) (g : Random) (p : coord)
  (others : list coord) :
  let n := StrategicGenius.grid_size self in
  let sh := StrategicGenius.shots self in
  Forall (λ q, q ∈ sh) (StrategicGenius.targets self) →
  filter (λ q, in_bounds n q ∧ q ∉ sh)
    [(r, c + 1); (r, c - 1); (r + 1, c); (r - 1, c)] = p :: others →
  StrategicGenius.choose_target
    (StrategicGenius.process_result self (r, c) true) g
  = Ok (p, StrategicGenius.mk n false ({[p]} ∪ sh) others, g).
Proof.
  intros n sh Hstale Hfree.
  assert (Hp : p ∉ sh).
  { assert (Hin : p ∈ p :: others) by apply list_elem_of_here.
    rewrite <- Hfree in Hin. by apply list_elem_of_filter in Hin as [[_ ?] _]. }
  unfold StrategicGenius.process_result, StrategicGenius.cross.
  cbn [fst snd]. fold n sh. rewrite Hfree.
  by apply strategic_genius_first_in_first_out_core.
Qed.

Lemma strategic_genius_follows_hit_witness :
  StrategicGenius.choose_target
    (StrategicGenius.process_result (StrategicGenius.init 4) (0, 0) true) seed0
  = Ok ((0, 1), StrategicGenius.mk 4 false ({[ (0, 1) ]} ∪ ∅) [(1, 0)], seed0).
Proof.
  apply (strategic_genius_follows_hit (StrategicGenius.init 4) 0 0 seed0
           (0, 1) [(1, 0)]).
  - constructor.
  - by vm_compute.
Defined.

(** ** Placements *)

Lemma NoDup_fmap_range {B} (f : Z → B) (size : Z) :
  Inj (=) (=) f → NoDup (f <$> range size).
Proof. intros Hf. apply NoDup_fmap_2; [done|]. apply NoDup_seqZ. Qed.

Lemma calc_positions_Some (self : Player.t) (r c size : Z) (orient : string)
  (cells : list coord) :
  Player._calc_positions self (r, c) size orient = Some cells →
  (orient = "h"%string ∧ c + size ≤ Grid.grid_size (Player.grid self) ∧
   cells = (λ i, (r, c + i)) <$> range size) ∨
  (orient ≠ "h"%string ∧ r + size ≤ Grid.grid_size (Player.grid self) ∧
   cells = (λ i, (r + i, c)) <$> range size).
Proof.
  unfold Player._calc_positions.
  repeat case_decide; intros [= <-]; [left|right]; (split; [done|]);
    (split; [lia|done]).
Qed.

Lemma calc_positions_footprint_core
  (self : Player.t) (r c size : Z) (orient : string) (cells : list coord) :
  Player._calc_positions self (r, c) size orient = Some cells →
  length cells = Z.to_nat size ∧
  NoDup cells ∧
  (in_bounds (Grid.grid_size (Player.grid self)) (r, c) →
   Forall (in_bounds (Grid.grid_size (Player.grid self))) cells).
Proof.
  intros H.
  apply calc_positions_Some in H as [(_ & Hle & ->)|(_ & Hle & ->)].
  - split; [by rewrite length_fmap; unfold range; rewrite length_seqZ|].
    split; [apply NoDup_fmap_range; intros i j [= ?]; lia|].
    intros Hs. by apply row_cells_in_bounds.
  - split; [by rewrite length_fmap; unfold range; rewrite length_seqZ|].
    split; [apply NoDup_fmap_range; intros i j [= ?]; lia|].
    intros Hs. by apply column_cells_in_bounds.
Qed.

(** X7.  A placement that [_calc_positions] returns consists of exactly [size]
    pairwise distinct cells (none at all for a size below 1), and when the
    start lies on the board all of them lie on the board. *)
Theorem calc_positions_footprint
  (self : Player.t) (r c size : Z) (orient : string) (cells : list coord) :
  Player._calc_positions self (r, c) size orient = Some cells →
  length cells = Z.to_nat size ∧
  NoDup cells ∧
  (in_bounds (Grid.grid_size (Player.grid self)) (r, c) →
   Forall (in_bounds (Grid.grid_size (Player.grid self))) cells).
Proof. apply calc_positions_footprint_core. Qed.

Lemma calc_positions_footprint_witness :
  length [(0, 0); (1, 0); (2, 0)] = Z.to_nat 3 ∧
  NoDup [(0, 0); (1, 0); (2, 0)] ∧
  Forall (in_bounds (Grid.grid_size (Player.grid (Player.mk (Grid.init 4) []))))
    [(0, 0); (1, 0); (2, 0)].
Proof.
  destruct (calc_positions_footprint (Player.mk (Grid.init 4) []) 0 0 3 "v"
              [(0, 0); (1, 0); (2, 0)] eq_refl) as (Hlen & Hnd & Hb).
  split; [exact Hlen|]. split; [exact Hnd|]. apply Hb.
  unfold in_bounds. cbn. lia.
Defined.

(** X8.  Checkerboard hunting cannot miss a ship: a placement of length 2 or
    more that [_calc_positions] returns has a cell with even
    [row + column], so once every even cell of the board is in [shots],
    every such ship placed from a start on the board has been shot at. *)
Theorem checkerboard_meets_every_ship
  (self : Player.t) (r c size : Z) (orient : string) (cells : list coord)
  (sh : gset coord) :
  let n := Grid.grid_size (Player.grid self) in
  Player._calc_positions self (r, c) size orient = Some cells →
  2 ≤ size →
  in_bounds n (r, c) →
  (∀ p, in_bounds n p → (p.1 + p.2) `mod` 2 = 0 → p ∈ sh) →
  ∃ p, p ∈ cells ∧ (p.1 + p.2) `mod` 2 = 0 ∧ p ∈ sh.
Proof.
  intros n H Hsize Hstart Heven.
  pose proof (calc_positions_footprint_core _ _ _ _ _ _ H) as (_ & _ & Hb).
  specialize (Hb Hstart). rewrite Forall_forall in Hb.
  assert (H0 : 0 ∈ range size) by (apply elem_of_range; lia).
  assert (H1 : 1 ∈ range size) by (apply elem_of_range; lia).
  assert (Hpar : (r + c) `mod` 2 = 0 ∨ (r + c + 1) `mod` 2 = 0).
  { destruct (Z.mod_pos_bound (r + c) 2) as [? ?]; [lia|].
    destruct (decide ((r + c) `mod` 2 = 0)) as [|Hne]; [by left|right].
    rewrite Z.add_mod by lia.
    replace ((r + c) `mod` 2) with 1 by lia. done. }
  apply calc_positions_Some in H as [(_ & _ & ->)|(_ & _ & ->)].
  - destruct Hpar as [Hp|Hp].
    + assert (Hin : (r, c + 0) ∈ (λ i, (r, c + i)) <$> range size)
        by (apply list_elem_of_fmap; by exists 0).
      exists (r, c + 0). split; [done|]. cbn [fst snd].
      replace (r + (c + 0)) with (r + c) by lia. split; [done|].
      apply Heven; [by apply Hb|]. cbn. by replace (r + (c + 0)) with (r + c) by lia.
    + assert (Hin : (r, c + 1) ∈ (λ i, (r, c + i)) <$> range size)
        by (apply list_elem_of_fmap; by exists 1).
      exists (r, c + 1). split; [done|]. cbn [fst snd].
      replace (r + (c + 1)) with (r + c + 1) by lia. split; [done|].
      apply Heven; [by apply Hb|]. cbn.
      by replace (r + (c + 1)) with (r + c + 1) by lia.
  - destruct Hpar as [Hp|Hp].
    + assert (Hin : (r + 0, c) ∈ (λ i, (r + i, c)) <$> range size)
        by (apply list_elem_of_fmap; by exists 0).
      exists (r + 0, c). split; [done|]. cbn [fst snd].
      replace (r + 0 + c) with (r + c) by lia. split; [done|].
      apply Heven; [by apply Hb|]. cbn. by replace (r + 0 + c) with (r + c) by lia.
    + assert (Hin : (r + 1, c) ∈ (λ i, (r + i, c)) <$> range size)
        by (apply list_elem_of_fmap; by exists 1).
      exists (r + 1, c). split; [done|]. cbn [fst snd].
      replace (r + 1 + c) with (r + c + 1) by lia. split; [done|].
      apply Heven; [by apply Hb|]. cbn.
      by replace (r + 1 + c) with (r + c + 1) by lia.
Qed.

Lemma checkerboard_meets_every_ship_witness :
  ∃ p, p ∈ [(0, 1); (0, 2)] ∧ (p.1 + p.2) `mod` 2 = 0 ∧
       p ∈ ({[ (0, 0); (0, 2); (1, 1); (2, 0); (2, 2) ]} : gset coord).
Proof.
  apply (checkerboard_meets_every_ship (Player.mk (Grid.init 3) [])
           0 1 2 "h" [(0, 1); (0, 2)]
           {[ (0, 0); (0, 2); (1, 1); (2, 0); (2, 2) ]}).
  - reflexivity.
  - lia.
  - unfold in_bounds. cbn. lia.
  - cbn. intros [r c] [Hr Hc]. cbn in *.
    assert (Hcase : (r = 0 ∨ r = 1 ∨ r = 2) ∧ (c = 0 ∨ c = 1 ∨ c = 2)) by lia.
    destruct Hcase as [[-> | [-> | ->]] [-> | [-> | ->]]]; cbn; intros Hpar;
      try discriminate Hpar; by vm_compute.
Defined.

(** ** Ships under the data-model invariant *)

Lemma ship_wf_hits_subset (s : Ship.t) :
  ship_wf s → Ship.hits s ⊆ list_to_set (Ship.positions s).
Proof.
  intros (_ & _ & H) p Hp. apply elem_of_list_to_set. by apply H.
Qed.

Lemma ship_wf_size_positions (s : Ship.t) :
  ship_wf s →
  size (list_to_set (Ship.positions s) : gset coord)
  = length (Ship.positions s).
Proof. intros (Hnd & _). by apply size_list_to_set. Qed.

Lemma is_sunk_iff_all_positions_hit_core (s : Ship.t) :
  ship_wf s →
  (Ship.is_sunk s = true ↔ ∀ p, p ∈ Ship.positions s → p ∈ Ship.hits s) ∧
  Z.of_nat (size (Ship.hits s)) ≤ Ship.size s.
Proof.
  intros Hwf. pose proof (ship_wf_hits_subset s Hwf) as Hsub.
  pose proof (ship_wf_size_positions s Hwf) as Hsz.
  destruct Hwf as (Hnd & Hlen & Hhits).
  pose proof (subseteq_size _ _ Hsub) as Hle.
  split; [|lia].
  unfold Ship.is_sunk. rewrite bool_decide_eq_true. split.
  - intros Heq p Hp.
    assert (Hset : Ship.hits s = list_to_set (Ship.positions s)).
    { apply set_subseteq_size_eq; [done|]. lia. }
    rewrite Hset. by apply elem_of_list_to_set.
  - intros Hall.
    assert (Hset : Ship.hits s = list_to_set (Ship.positions s)).
    { apply set_eq. intros p. rewrite elem_of_list_to_set. split; auto. }
    rewrite Hset, Hsz. done.
Qed.

(** X9.  A ship that satisfies the invariant is sunk exactly when each of its
    positions was hit, and it is never hit more often than it is long. *)
Theorem is_sunk_iff_all_positions_hit (s : Ship.t) :
  ship_wf s →
  (Ship.is_sunk s = true ↔ ∀ p, p ∈ Ship.positions s → p ∈ Ship.hits s) ∧
  Z.of_nat (size (Ship.hits s)) ≤ Ship.size s.
Proof. apply is_sunk_iff_all_positions_hit_core. Qed.

Lemma is_sunk_iff_all_positions_hit_witness :
  (Ship.is_sunk (Ship.mk 2 [(0, 0); (0, 1)] {[ (0, 0) ]}) = true ↔
   ∀ p, p ∈ [(0, 0); (0, 1)] → p ∈ ({[ (0, 0) ]} : gset coord)) ∧
  Z.of_nat (size ({[ (0, 0) ]} : gset coord)) ≤ 2.
Proof.
  refine (is_sunk_iff_all_positions_hit
            (Ship.mk 2 [(0, 0); (0, 1)] {[ (0, 0) ]}) _).
  split; [|split]; cbn.
  - apply (bool_decide_unpack _). by vm_compute.
  - reflexivity.
  - intros p ->%elem_of_singleton. apply list_elem_of_here.
Defined.

(** X10.  [check_hit] keeps the invariant, whatever the target, and a ship that
    satisfies it and is sunk stays sunk. *)
Theorem check_hit_keeps_invariant (s : Ship.t) (target : coord) :
  ship_wf s →
  ship_wf (Ship.check_hit s target).2 ∧
  (Ship.is_sunk s = true → Ship.is_sunk (Ship.check_hit s target).2 = true).
Proof.
  intros Hwf.
  assert (Hwf' : ship_wf (Ship.check_hit s target).2).
  { destruct Hwf as (Hnd & Hlen & Hhits). unfold Ship.check_hit.
    case_decide as Hin; [|done]. split; [done|]. split; [done|].
    cbn. intros p [->%elem_of_singleton|?]%elem_of_union; auto. }
  split; [done|]. intros Hsunk.
  apply (is_sunk_iff_all_positions_hit_core _ Hwf') .
  pose proof (proj1 (proj1 (is_sunk_iff_all_positions_hit_core s Hwf)) Hsunk) as Hall.
  unfold Ship.check_hit. case_decide; [|done]. cbn.
  intros p Hp. apply elem_of_union_r. by apply Hall.
Qed.

Lemma check_hit_keeps_invariant_witness :
  ship_wf (Ship.check_hit (Ship.mk 1 [(0, 0)] {[ (0, 0) ]}) (0, 0)).2 ∧
  Ship.is_sunk (Ship.check_hit (Ship.mk 1 [(0, 0)] {[ (0, 0) ]}) (0, 0)).2
    = true.
Proof.
  destruct (check_hit_keeps_invariant (Ship.mk 1 [(0, 0)] {[ (0, 0) ]}) (0, 0))
    as [Hwf Hsunk].
  - split; [|split]; cbn.
    + apply (bool_decide_unpack _). by vm_compute.
    + reflexivity.
    + intros p ->%elem_of_singleton. apply list_elem_of_here.
  - split; [exact Hwf|]. apply Hsunk. by vm_compute.
Defined.

Lemma shoot_all_spec (targets : list coord) : ∀ s : Ship.t,
  Ship.size (shoot_all s targets) = Ship.size s ∧
  Ship.positions (shoot_all s targets) = Ship.positions s ∧
  ∀ p, p ∈ Ship.hits (shoot_all s targets) ↔
       p ∈ Ship.hits s ∨ (p ∈ targets ∧ p ∈ Ship.positions s).
Proof.
  induction targets as [|t targets IH]; intros s.
  - cbn. split; [done|]. split; [done|]. intros p. split; [by left|].
    by intros [?|[?%not_elem_of_nil _]].
  - cbn [shoot_all foldl]. fold (shoot_all (Ship.check_hit s t).2 targets).
    destruct (IH (Ship.check_hit s t).2) as (Hsz & Hpos & Hh).
    rewrite Hsz, Hpos. unfold Ship.check_hit in *.
    case_decide as Hin; cbn in *.
    + split; [done|]. split; [done|]. intros p. rewrite Hh, elem_of_union,
        elem_of_singleton, elem_of_cons. split.
      * intros [[->|?]|[? ?]]; auto.
      * intros [?|[[->|?] ?]]; auto.
    + split; [done|]. split; [done|]. intros p. rewrite Hh, elem_of_cons.
      split; [intros [?|[? ?]]; auto|]. intros [?|[[->|?] ?]]; auto. done.
Qed.

Lemma shooting_every_position_sinks_core
  (size : Z) (positions targets : list coord) :
  NoDup positions →
  Z.of_nat (length positions) = size →
  (Ship.is_sunk (shoot_all (Ship.init size positions) targets) = true ↔
   ∀ p, p ∈ positions → p ∈ targets).
Proof.
  intros Hnd Hlen.
  destruct (shoot_all_spec targets (Ship.init size positions))
    as (Hsz & Hpos & Hh). cbn in Hsz, Hpos, Hh.
  assert (Hwf : ship_wf (shoot_all (Ship.init size positions) targets)).
  { split; [by rewrite Hpos|]. split; [by rewrite Hpos, Hsz|].
    intros p. rewrite Hh, Hpos. intros [?%not_elem_of_empty|[_ ?]]; done. }
  rewrite (proj1 (is_sunk_iff_all_positions_hit_core _ Hwf)), Hpos.
  split.
  - intros H p Hp. apply H, Hh in Hp as [?%not_elem_of_empty|[? _]]; done.
  - intros H p Hp. apply Hh. right. auto.
Qed.

(** X11.  A ship built by [Ship(size, positions)] from [size] pairwise distinct
    positions is not sunk while a position is left out, and calling
    [check_hit] on every one of its positions, in any order and with any
    other shots in between, sinks it. *)
Theorem shooting_every_position_sinks
  (size : Z) (positions targets : list coord) :
  NoDup positions →
  Z.of_nat (length positions) = size →
  (Ship.is_sunk (shoot_all (Ship.init size positions) targets) = true ↔
   ∀ p, p ∈ positions → p ∈ targets).
Proof. apply shooting_every_position_sinks_core. Qed.

Lemma shooting_every_position_sinks_witness :
  Ship.is_sunk (shoot_all (Ship.init 2 [(0, 0); (0, 1)])
                  [(0, 1); (1, 1); (0, 0)]) = true ↔
  ∀ p, p ∈ [(0, 0); (0, 1)] → p ∈ [(0, 1); (1, 1); (0, 0)].
Proof.
  refine (shooting_every_position_sinks 2 [(0, 0); (0, 1)]
            [(0, 1); (1, 1); (0, 0)] _ _).
  - apply (bool_decide_unpack _). by vm_compute.
  - reflexivity.
Defined.

(** ** Attack on a fleet *)

(** X12.  [any(s.check_hit(target) for s in ships)] records the hit on the first
    ship that occupies the target and on no other ship; when no ship
    occupies the target the fleet is left as it is. *)
Theorem any_check_hit_first_ship
  (before behind : list Ship.t) (s : Ship.t) (target : coord) :
  Forall (λ x, target ∉ Ship.positions x) before →
  any_check_hit before target = (false, before) ∧
  (target ∈ Ship.positions s →
   any_check_hit (before ++ s :: behind) target =
     (true,
      before ++
      Ship.mk (Ship.size s) (Ship.positions s) ({[target]} ∪ Ship.hits s)
      :: behind)).
Proof.
  induction 1 as [|x before Hx _ [IH1 IH2]].
  - split; [done|]. intros Hs. cbn. by rewrite (check_hit_on s target Hs).
  - split.
    + cbn. rewrite (check_hit_off x target Hx). by rewrite IH1.
    + intros Hs. cbn. rewrite (check_hit_off x target Hx).
      by rewrite (IH2 Hs).
Qed.

Lemma any_check_hit_first_ship_witness :
  any_check_hit [Ship.init 1 [(0, 0)]] (1, 1)
    = (false, [Ship.init 1 [(0, 0)]]) ∧
  any_check_hit
    ([Ship.init 1 [(0, 0)]] ++
     Ship.init 2 [(1, 1); (1, 2)] :: [Ship.init 1 [(1, 1)]]) (1, 1)
  = (true,
     [Ship.init 1 [(0, 0)]] ++
     Ship.mk 2 [(1, 1); (1, 2)] ({[ (1, 1) ]} ∪ ∅)
     :: [Ship.init 1 [(1, 1)]]).
Proof.
  destruct (any_check_hit_first_ship [Ship.init 1 [(0, 0)]]
              [Ship.init 1 [(1, 1)]] (Ship.init 2 [(1, 1); (1, 2)]) (1, 1))
    as [Hmiss Hhit].
  - constructor; [|constructor]. cbn. intros Hin.
    apply list_elem_of_singleton in Hin. discriminate Hin.
  - split; [exact Hmiss|]. apply Hhit. apply list_elem_of_here.
Defined.

(** ** Random placement *)

Lemma randrange_Return (n : Z) (g : Random) (v : Z) (g' : Random) :
  randrange n g = Return (v, g') → 0 ≤ v < n.
Proof.
  unfold randrange. case_decide as Hn; [|done].
  destruct (randbelow (Z.to_nat n) g) as [i g1] eqn:E. intros [= <- <-].
  pose proof (randbelow_lt (Z.to_nat n) g) as Hlt. rewrite E in Hlt.
  cbn in Hlt. lia.
Qed.

Lemma randrange_positive (n : Z) (g : Random) :
  0 < n → ∃ v g', randrange n g = Return (v, g').
Proof.
  intros Hn. unfold randrange. rewrite decide_True by done.
  destruct (randbelow (Z.to_nat n) g) as [i g1]. eauto.
Qed.

Lemma randrange_empty (n : Z) (g : Random) :
  n ≤ 0 → randrange n g = Abort ValueError.
Proof. intros Hn. unfold randrange. by rewrite decide_False by lia. Qed.

Lemma choice_orient (g : Random) :
  ∃ orient g',
    choice ["h"; "v"]%string g = Ok (orient, g') ∧
    (orient = "h" ∨ orient = "v")%string.
Proof.
  destruct (choice_nonempty ["h"; "v"]%string g) as (o & g' & E & Hin); [done|].
  exists o, g'. split; [done|].
  apply elem_of_cons in Hin as [->|Hin]; [by left|].
  apply list_elem_of_singleton in Hin as ->. by right.
Qed.

Lemma place_random_Return fuel n self occupied size g self' occupied' g' :
  Placement.place_random fuel n self occupied size g
    = Some (Return (self', occupied', g')) →
  ∃ r c orient cells,
    in_bounds n (r, c) ∧
    Player._calc_positions self (r, c) size orient = Some cells ∧
    cells ≠ [] ∧
    Forall (λ q, q ∉ occupied) cells ∧
    self' = Player.mk (Player.grid self)
              (Player.ships self ++ [Ship.init size cells]) ∧
    occupied' = occupied ∪ list_to_set cells.
Proof.
  revert g. induction fuel as [|fuel IH]; intros g; [done|].
  cbn [Placement.place_random].
  destruct (choice_orient g) as (orient & g1 & -> & _). cbn [lift].
  destruct (randrange n g1) as [[r g2]|e] eqn:Er; [|done].
  destruct (randrange n g2) as [[c g3]|e] eqn:Ec; [|done].
  apply randrange_Return in Er, Ec.
  destruct (Player._calc_positions self (r, c) size orient)
    as [cells|] eqn:Epos; (case_decide as Hacc; [|apply IH]); [|done].
  destruct cells as [|p ps]; [done|].
  intros [= <- <- <-]. exists r, c, orient, (p :: ps).
  split; [split; cbn; lia|]. split; [done|]. split; [done|].
  split; [exact Hacc|]. by split.
Qed.

Lemma place_random_more_fuel fuel fuel' n self occupied size g res :
  Placement.place_random fuel n self occupied size g = Some res →
  (fuel ≤ fuel')%nat →
  Placement.place_random fuel' n self occupied size g = Some res.
Proof.
  revert fuel' g. induction fuel as [|fuel IH]; intros fuel' g; [done|].
  intros H Hle. destruct fuel' as [|fuel']; [lia|].
  cbn [Placement.place_random] in *.
  destruct (lift (choice _ g)) as [[orient g1]|e]; [|done].
  destruct (randrange n g1) as [[r g2]|e]; [|done].
  destruct (randrange n g2) as [[c g3]|e]; [|done].
  case_decide; [done|]. apply IH; [done|lia].
Qed.

Lemma place_fleet_more_fuel fuel fuel' n sizes : ∀ self occupied g res,
  Placement.place_fleet fuel n self occupied sizes g = Some res →
  (fuel ≤ fuel')%nat →
  Placement.place_fleet fuel' n self occupied sizes g = Some res.
Proof.
  induction sizes as [|size sizes IH]; intros self occupied g res; [done|].
  cbn [Placement.place_fleet]. intros H Hle.
  destruct (Placement.place_random fuel n self occupied size g)
    as [r|] eqn:E; [|done].
  rewrite (place_random_more_fuel _ _ _ _ _ _ _ _ E Hle).
  destruct r as [[[self' occupied'] g']|e]; [|done]. by apply IH.
Qed.

Lemma fleet_wf_snoc (n : Z) (ships : list Ship.t) (size : Z)
  (cells : list coord) :
  fleet_wf n ships →
  NoDup cells → Z.of_nat (length cells) = size →
  Forall (in_bounds n) cells →
  Forall (λ q, q ∉ (list_to_set (ships ≫= Ship.positions) : gset coord)) cells →
  fleet_wf n (ships ++ [Ship.init size cells]).
Proof.
  intros (Hwf & Hb & Hnd) Hc Hlen Hcb Hfree. split; [|split].
  - apply Forall_app. split; [done|]. constructor; [|constructor].
    split; [done|]. split; [done|]. cbn. by intros p Hp%not_elem_of_empty.
  - apply Forall_app. split; [done|]. by constructor.
  - rewrite bind_app. cbn. rewrite (right_id_L [] (++)).
    apply NoDup_app. split; [done|]. split; [|done].
    intros p Hp Hpc. rewrite Forall_forall in Hfree.
    apply (Hfree p Hpc). by apply elem_of_list_to_set.
Qed.

Lemma place_fleet_Return fuel n sizes : ∀ self occupied g p g',
  Grid.grid_size (Player.grid self) = n →
  fleet_wf n (Player.ships self) →
  Forall (λ s, Ship.hits s = ∅ ∧ 1 ≤ Ship.size s ≤ n) (Player.ships self) →
  occupied = list_to_set (Player.ships self ≫= Ship.positions) →
  Placement.place_fleet fuel n self occupied sizes g = Some (Return (p, g')) →
  Player.grid p = Player.grid self ∧
  (∃ new, Player.ships p = Player.ships self ++ new ∧
          Ship.size <$> new = sizes) ∧
  fleet_wf n (Player.ships p) ∧
  Forall (λ s, Ship.hits s = ∅ ∧ 1 ≤ Ship.size s ≤ n) (Player.ships p).
Proof.
  induction sizes as [|size sizes IH]; intros self occupied g p g' Hn Hwf Hfresh Hocc.
  - cbn. intros [= <- <-]. split; [done|]. split; [|done].
    exists []. by rewrite (right_id_L [] (++)).
  - cbn [Placement.place_fleet].
    destruct (Placement.place_random fuel n self occupied size g)
      as [[[[self' occupied'] g1]|e]|] eqn:E; [|done|done].
    apply place_random_Return in E
      as (r & c & orient & cells & Hstart & Hpos & Hne & Hfree & -> & ->).
    pose proof (calc_positions_footprint_core _ _ _ _ _ _ Hpos) as (Hlen & Hnd & Hb).
    rewrite Hn in Hb. specialize (Hb Hstart).
    assert (Hsize : 1 ≤ size ≤ n).
    { destruct cells as [|q cells]; [done|]. cbn in Hlen.
      destruct Hstart as [Hr Hc]. cbn in Hr, Hc.
      apply calc_positions_Some in Hpos as [(_ & ? & _)|(_ & ? & _)]; lia. }
    intros H. apply IH in H as (Hg & (new & Hnew & Hsz) & Hwf' & Hfresh').
    + cbn in Hg, Hnew. split; [done|]. split; [|done].
      exists (Ship.init size cells :: new). split.
      * by rewrite Hnew, <- (assoc_L (++)).
      * cbn. by rewrite Hsz.
    + done.
    + cbn. apply fleet_wf_snoc; [done|done|lia|done|by subst occupied].
    + cbn. apply Forall_app. split; [done|]. by constructor.
    + cbn. subst occupied. rewrite bind_app, list_to_set_app_L. cbn.
      by rewrite (right_id_L [] (++)).
Qed.

Lemma random_placement_valid_core
  (fuel : nat) (n : Z) (sizes : list Z) (g : Random) (p : Player.t)
  (g' : Random) :
  Placement.random_placement fuel n sizes g = Some (Return (p, g')) →
  Player.grid p = Grid.init n ∧
  Ship.size <$> Player.ships p = sizes ∧
  fleet_wf n (Player.ships p) ∧
  Forall (λ s, Ship.hits s = ∅ ∧ 1 ≤ Ship.size s ≤ n) (Player.ships p).
Proof.
  intros H. unfold Placement.random_placement in H.
  apply place_fleet_Return in H as (Hg & (new & Hnew & Hsz) & Hwf & Hfresh);
    try done.
  - cbn in Hg, Hnew. split; [done|]. split; [by rewrite Hnew|done].
  - split; [constructor|]. split; [constructor|]. cbn. constructor.
Qed.

(** X13.  A fleet that [random_placement] returns: the grid is the fresh grid of
    the requested size; there is one ship per requested length, in order
    and of that length, each between 1 and the size of the board; every
    ship has as many pairwise distinct cells as it is long, all on the
    board, and nothing hit; no two ships share a cell. *)
Theorem random_placement_valid
  (fuel : nat) (n : Z) (sizes : list Z) (g : Random) (p : Player.t)
  (g' : Random) :
  Placement.random_placement fuel n sizes g = Some (Return (p, g')) →
  Player.grid p = Grid.init n ∧
  Ship.size <$> Player.ships p = sizes ∧
  fleet_wf n (Player.ships p) ∧
  Forall (λ s, Ship.hits s = ∅ ∧ 1 ≤ Ship.size s ≤ n) (Player.ships p).
Proof. apply random_placement_valid_core. Qed.

Lemma random_placement_valid_witness :
  match Placement.random_placement 20 5 [2; 2; 3] seed0 with
  | Some (Return (p, _)) =>
      Player.grid p = Grid.init 5 ∧
      Ship.size <$> Player.ships p = [2; 2; 3] ∧
      fleet_wf 5 (Player.ships p) ∧
      Forall (λ s, Ship.hits s = ∅ ∧ 1 ≤ Ship.size s ≤ 5) (Player.ships p)
  | _ => False
  end.
Proof.
  destruct (Placement.random_placement 20 5 [2; 2; 3] seed0)
    as [[[p g']|e]|] eqn:E.
  - exact (random_placement_valid 20 5 [2; 2; 3] seed0 p g' E).
  - vm_compute in E. discriminate E.
  - vm_compute in E. discriminate E.
Defined.

(** Fuel only bounds the search: a placement found within some number of
    passes per ship is the placement found with any larger number. *)
Lemma random_placement_more_fuel
  (fuel fuel' : nat) (n : Z) (sizes : list Z) (g : Random)
  (res : outcome (Player.t * Random)) :
  Placement.random_placement fuel n sizes g = Some res →
  (fuel ≤ fuel')%nat →
  Placement.random_placement fuel' n sizes g = Some res.
Proof. apply place_fleet_more_fuel. Qed.


Lemma place_random_misfit fuel n self occupied size g :
  0 < n → Grid.grid_size (Player.grid self) = n →
  size ≤ 0 ∨ n < size →
  Placement.place_random fuel n self occupied size g = None.
Proof.
  intros Hn Hg Hsize. revert g.
  induction fuel as [|fuel IH]; intros g; [done|].
  cbn [Placement.place_random].
  destruct (choice_orient g) as (orient & g1 & -> & _). cbn [lift].
  destruct (randrange_positive n g1 Hn) as (r & g2 & Er). rewrite Er.
  destruct (randrange_positive n g2 Hn) as (c & g3 & Ec). rewrite Ec.
  apply randrange_Return in Er, Ec.
  rewrite decide_False; [apply IH|].
  destruct (Player._calc_positions self (r, c) size orient)
    as [cells|] eqn:Epos; [|cbn; tauto].
  apply calc_positions_Some in Epos as [(_ & Hle & ->)|(_ & Hle & ->)];
    rewrite Hg in Hle.
  - destruct Hsize as [Hs|Hs]; [|lia].
    unfold range. rewrite seqZ_nil by lia. cbn. tauto.
  - destruct Hsize as [Hs|Hs]; [|lia].
    unfold range. rewrite seqZ_nil by lia. cbn. tauto.
Qed.

Lemma place_random_positive fuel n self occupied size g e :
  0 < n →
  Placement.place_random fuel n self occupied size g ≠ Some (Abort e).
Proof.
  intros Hn. revert g. induction fuel as [|fuel IH]; intros g; [done|].
  cbn [Placement.place_random].
  destruct (choice_orient g) as (orient & g1 & -> & _). cbn [lift].
  destruct (randrange_positive n g1 Hn) as (r & g2 & ->).
  destruct (randrange_positive n g2 Hn) as (c & g3 & ->).
  case_decide; [done|apply IH].
Qed.

Lemma place_fleet_misfit fuel n sizes : ∀ self occupied g,
  0 < n → Grid.grid_size (Player.grid self) = n →
  Exists (λ size, size ≤ 0 ∨ n < size) sizes →
  Placement.place_fleet fuel n self occupied sizes g = None.
Proof.
  induction sizes as [|size sizes IH]; intros self occupied g Hn Hg Hex.
  - by apply Exists_nil in Hex.
  - cbn [Placement.place_fleet].
    destruct (Placement.place_random fuel n self occupied size g)
      as [[[[self' occupied'] g1]|e]|] eqn:E; [| |done].
    + pose proof (place_random_Return _ _ _ _ _ _ _ _ _ E)
        as (r & c & orient & cells & Hstart & Hpos & Hne & _ & -> & _).
      apply Exists_cons in Hex as [Hbad|Hex].
      * by rewrite place_random_misfit in E.
      * by apply IH.
    + by apply place_random_positive in E.
Qed.

(** X14.  [random_placement] does not check the lengths it is given: on a board
    of positive size, a length below 1 or above the size of the board
    keeps the loop of its ship searching for ever, however many passes it
    is given. *)
Theorem random_placement_misfit_never_ends
  (fuel : nat) (n : Z) (sizes : list Z) (g : Random) :
  0 < n →
  Exists (λ size, size ≤ 0 ∨ n < size) sizes →
  Placement.random_placement fuel n sizes g = None.
Proof. intros Hn Hex. by apply place_fleet_misfit. Qed.

Lemma random_placement_misfit_never_ends_witness :
  Placement.random_placement 1000 4 [2; 0; 3] seed0 = None.
Proof.
  apply random_placement_misfit_never_ends; [lia|].
  apply Exists_cons_tl, Exists_cons_hd. lia.
Defined.

(** X15.  On a board of size 0 or below the first pass for the first ship stops
    with the ValueError of [random.randrange] on an empty range. *)
Theorem random_placement_empty_board
  (fuel : nat) (n size : Z) (sizes : list Z) (g : Random) :
  n ≤ 0 →
  Placement.random_placement (S fuel) n (size :: sizes) g
  = Some (Abort ValueError).
Proof.
  intros Hn. unfold Placement.random_placement.
  cbn [Placement.place_fleet Placement.place_random].
  destruct (choice_orient g) as (orient & g1 & -> & _). cbn [lift].
  by rewrite randrange_empty.
Qed.

Lemma random_placement_empty_board_witness :
  Placement.random_placement 1 0 [2] seed0 = Some (Abort ValueError).
Proof. apply (random_placement_empty_board 0 0 2 [] seed0). lia. Defined.

Lemma ship_fresh_eta (s : Ship.t) :
  Ship.hits s = ∅ → s = Ship.init (Ship.size s) (Ship.positions s).
Proof. destruct s as [sz pos h]. cbn. by intros ->. Qed.

(** X16.  A fleet that [random_placement] returns has no ship sunk, and after
    [check_hit] was called for every position of every ship, the whole
    fleet is sunk. *)
Theorem placed_fleet_sinks_when_all_hit
  (fuel : nat) (n : Z) (sizes : list Z) (g : Random) (p : Player.t)
  (g' : Random) :
  Placement.random_placement fuel n sizes g = Some (Return (p, g')) →
  Forall (λ s, Ship.is_sunk s = false) (Player.ships p) ∧
  Player.all_sunk
    (Player.mk (Player.grid p)
       ((λ s, shoot_all s (Ship.positions s)) <$> Player.ships p)) = true.
Proof.
  intros H. apply random_placement_valid_core in H as (_ & _ & (Hwf & _ & _) & Hfresh).
  split.
  - apply Forall_forall. intros s Hs. rewrite Forall_forall in Hfresh.
    destruct (Hfresh s Hs) as [Hh Hsz]. unfold Ship.is_sunk.
    apply bool_decide_eq_false. rewrite Hh, size_empty. lia.
  - apply all_sunk_forall. cbn. intros s' (s & -> & Hs)%list_elem_of_fmap.
    rewrite Forall_forall in Hwf, Hfresh.
    destruct (Hwf s Hs) as (Hnd & Hlen & _). destruct (Hfresh s Hs) as [Hh _].
    rewrite (ship_fresh_eta s Hh) at 1.
    by apply shooting_every_position_sinks_core.
Qed.

Lemma placed_fleet_sinks_when_all_hit_witness :
  match Placement.random_placement 20 5 [2; 2; 3] seed0 with
  | Some (Return (p, _)) =>
      Forall (λ s, Ship.is_sunk s = false) (Player.ships p) ∧
      Player.all_sunk
        (Player.mk (Player.grid p)
           ((λ s, shoot_all s (Ship.positions s)) <$> Player.ships p)) = true
  | _ => False
  end.
Proof.
  destruct (Placement.random_placement 20 5 [2; 2; 3] seed0)
    as [[[p g']|e]|] eqn:E.
  - exact (placed_fleet_sinks_when_all_hit 20 5 [2; 2; 3] seed0 p g' E).
  - vm_compute in E. discriminate E.
  - vm_compute in E. discriminate E.
Defined.

(** ** Coordinates typed in *)

Lemma list_ascii_substring (k : nat) (s : string) :
  String.list_ascii_of_string (String.substring 0 k s)
  = take k (String.list_ascii_of_string s).
Proof.
  revert k. induction s as [|a s IH]; intros [|k]; cbn; try done.
  by rewrite IH.
Qed.

Lemma uppercase_lookup (i : nat) (a : ascii) :
  String.list_ascii_of_string ascii_uppercase !! i = Some a ↔
  (i < 26)%nat ∧ a = ascii_of_nat (65 + i).
Proof.
  do 26 (destruct i as [|i];
         [cbn; split; [intros [= <-]; split; [lia|done]|by intros [_ ->]]|]).
  cbn. split; [done|]. intros [? _]. lia.
Qed.

Lemma elem_of_uppercase_slice (n : Z) (a : ascii) :
  0 ≤ n →
  a ∈ String.list_ascii_of_string (slice_to n ascii_uppercase) ↔
  ∃ i : nat, (i < 26)%nat ∧ Z.of_nat i < n ∧ a = ascii_of_nat (65 + i).
Proof.
  intros Hn. unfold slice_to. rewrite decide_True by done.
  rewrite list_ascii_substring, list_elem_of_lookup. split.
  - intros (i & Hi). apply lookup_take_Some in Hi as [Hi Hlt].
    apply uppercase_lookup in Hi as [? ->]. exists i. split; [done|].
    split; [lia|done].
  - intros (i & Hi & Hlt & ->). exists i. apply lookup_take_Some.
    split; [|lia]. by apply uppercase_lookup.
Qed.

Lemma parse_Some (py : builtins) (self : Player.t) (text : string) (r c : Z) :
  Human._parse py self text = Some (r, c) →
  ∃ (i : nat) rest,
    text = String (ascii_of_nat (65 + i)) rest ∧ rest ≠ ""%string ∧
    (i < 26)%nat ∧ r = Z.of_nat i ∧
    r < Grid.grid_size (Player.grid self) ∧
    int py rest = Some (c + 1) ∧
    0 ≤ c < Grid.grid_size (Player.grid self).
Proof.
  unfold Human._parse. destruct text as [|a rest]; [done|].
  case_decide as Hbad; [done|].
  destruct (int py rest) as [v|] eqn:Ev; [|done].
  case_decide as Hc; [|done]. intros [= <- <-].
  assert (Hlen : ¬ (String.length (String a rest) < 2)%nat) by tauto.
  assert (Hin : a ∈ String.list_ascii_of_string
                  (slice_to (Grid.grid_size (Player.grid self))
                     ascii_uppercase)).
  { apply dec_stable. intros Hn. apply Hbad. by right. }
  apply elem_of_uppercase_slice in Hin as (i & Hi & Hlt & ->); [|lia].
  exists i, rest. split; [done|]. split.
  { intros ->. cbn in Hlen. lia. }
  split; [done|]. split.
  { rewrite nat_ascii_embedding by lia.
    change (nat_of_ascii "A") with 65%nat. lia. }
  split; [rewrite nat_ascii_embedding by lia;
          change (nat_of_ascii "A") with 65%nat; lia|].
  split; [rewrite Ev; f_equal; lia|lia].
Qed.

Lemma parse_on_board_core
  (py : builtins) (self : Player.t) (text : string) (r c : Z) :
  Human._parse py self text = Some (r, c) →
  in_bounds (Grid.grid_size (Player.grid self)) (r, c) ∧
  r < 26 ∧ (2 ≤ String.length text)%nat.
Proof.
  intros H. apply parse_Some in H
    as (i & rest & -> & Hrest & Hi & -> & Hr & _ & Hc).
  split; [split; cbn; lia|]. split; [lia|].
  destruct rest; [done|]. cbn. lia.
Qed.

(** X17.  A coordinate that [_parse] returns is a cell of the board, its row is
    one of the 26 letters, and the text had a letter and at least one more
    character. *)
Theorem parse_on_board
  (py : builtins) (self : Player.t) (text : string) (r c : Z) :
  Human._parse py self text = Some (r, c) →
  in_bounds (Grid.grid_size (Player.grid self)) (r, c) ∧
  r < 26 ∧ (2 ≤ String.length text)%nat.
Proof. apply parse_on_board_core. Qed.

Lemma parse_on_board_witness :
  in_bounds (Grid.grid_size (Player.grid (Player.mk (Grid.init 3) []))) (1, 2) ∧
  1 < 26 ∧ (2 ≤ String.length "B3")%nat.
Proof.
  apply (parse_on_board demo_py (Player.mk (Grid.init 3) []) "B3" 1 2).
  reflexivity.
Defined.

(** X18.  Every cell of the board can be typed in: the letter of a row below 26
    followed by a text that [int] reads as the column plus one is parsed
    to that cell. *)
Theorem parse_recognises_every_cell
  (py : builtins) (self : Player.t) (i : nat) (c : Z) (digits : string) :
  (i < 26)%nat →
  in_bounds (Grid.grid_size (Player.grid self)) (Z.of_nat i, c) →
  digits ≠ ""%string →
  int py digits = Some (c + 1) →
  Human._parse py self (String (ascii_of_nat (65 + i)) digits)
  = Some (Z.of_nat i, c).
Proof.
  intros Hi [Hr Hc] Hd Hint. cbn in Hr, Hc. unfold Human._parse.
  rewrite decide_False.
  - rewrite Hint. replace (c + 1 - 1) with c by lia.
    rewrite decide_True by done. rewrite nat_ascii_embedding by lia.
    change (nat_of_ascii "A") with 65%nat. do 2 f_equal. lia.
  - intros [Hlen|Hin].
    + destruct digits; [done|]. cbn in Hlen. lia.
    + apply Hin. apply elem_of_uppercase_slice; [lia|].
      exists i. split; [done|]. split; [lia|done].
Qed.

Lemma parse_recognises_every_cell_witness :
  Human._parse demo_py (Player.mk (Grid.init 3) [])
    (String (ascii_of_nat (65 + 2)) "1") = Some (Z.of_nat 2, 0).
Proof.
  apply (parse_recognises_every_cell demo_py (Player.mk (Grid.init 3) [])
           2 0 "1").
  - lia.
  - unfold in_bounds. cbn. lia.
  - discriminate.
  - reflexivity.
Defined.

(** ** Rendering *)


Lemma mapM_result_Ok {A B} (f : A → result B) (l : list A) :
  (∀ x, x ∈ l → ∃ y, f x = Ok y) →
  ∃ ys, mapM f l = Ok ys ∧ length ys = length l.
Proof.
  induction l as [|x l IH]; intros Hok; [by exists []|].
  destruct (Hok x) as [y Hy]; [apply list_elem_of_here|].
  destruct IH as (ys & Hys & Hlen).
  { intros z Hz. by apply Hok, list_elem_of_further. }
  exists (y :: ys). cbn. rewrite Hy. cbn.
  fold (mapM f l). rewrite Hys. cbn. by rewrite Hlen.
Qed.

Lemma mapM_result_Ok_inv {A B} (f : A → result B) (l : list A) ys :
  mapM f l = Ok ys → ∀ x, x ∈ l → ∃ y, f x = Ok y.
Proof.
  revert ys. induction l as [|x l IH]; intros ys H z Hz.
  - by apply not_elem_of_nil in Hz.
  - cbn in H. destruct (f x) as [y|e] eqn:Ex; [|done]. cbn in H.
    fold (mapM f l) in H. destruct (mapM f l) as [k|e] eqn:El; [|done].
    apply elem_of_cons in Hz as [->|Hz]; [eauto|]. by eapply IH.
Qed.

Lemma mapM_result_Raise {A B} (f : A → result B) (l1 l2 : list A) x e :
  (∀ y, y ∈ l1 → ∃ z, f y = Ok z) → f x = Raise e →
  mapM f (l1 ++ x :: l2) = Raise e.
Proof.
  induction l1 as [|y l1 IH]; intros Hok Hx.
  - cbn. by rewrite Hx.
  - destruct (Hok y) as [z Hz]; [apply list_elem_of_here|].
    cbn. rewrite Hz. cbn. fold (mapM f (l1 ++ x :: l2)).
    rewrite IH; [done| |done]. intros w Hw. by apply Hok, list_elem_of_further.
Qed.



Lemma uppercase_get (r : Z) :
  0 ≤ r →
  (r < 26 → ∃ a, String.get (Z.to_nat r) ascii_uppercase = Some a) ∧
  (26 ≤ r → String.get (Z.to_nat r) ascii_uppercase = None).
Proof.
  intros Hr. split.
  - intros Hlt. assert (Hn : (Z.to_nat r < 26)%nat) by lia.
    revert Hn. generalize (Z.to_nat r). intros i Hi.
    do 26 (destruct i as [|i]; [cbn; eauto|]). lia.
  - intros Hge. assert (Hn : (26 ≤ Z.to_nat r)%nat) by lia.
    revert Hn. generalize (Z.to_nat r). intros i Hi.
    do 26 (destruct i as [|i]; [lia|]). done.
Qed.

Lemma render_row_Ok k (self : Grid.t) show ships (r : Z) :
  0 ≤ r < 26 → r < Grid.grid_size self →
  (∀ p, in_bounds (Grid.grid_size self) p → is_Some (Grid.cells self !! p)) →
  ∃ line, Display.render_row k self show ships r = Ok line.
Proof.
  intros Hr Hn Htotal. unfold Display.render_row.
  destruct (proj1 (uppercase_get r (proj1 Hr)) (proj2 Hr)) as [a ->].
  destruct (mapM_result_Ok
    (λ c, match Grid.cells self !! (r, c) with
          | Some cell =>
              Ok (Display.symbol k cell show ships (r, c) ++ RESET_ALL k)%string
          | None => Raise KeyError
          end) (range (Grid.grid_size self))) as (cells & -> & _).
  - intros c Hc%elem_of_range.
    destruct (Htotal (r, c)) as [cell ->]; [split; cbn; lia|]. eauto.
  - cbn. eauto.
Qed.

(** X20.  On a board of at most 26 rows whose dictionary has every cell of the
    board, [render] returns the header and one line per row. *)
Theorem render_fits_alphabet
  (k : colors) (self : Grid.t) (show_ships : bool)
  (ships : option (list Ship.t)) :
  Grid.grid_size self ≤ 26 →
  (∀ p, in_bounds (Grid.grid_size self) p → is_Some (Grid.cells self !! p)) →
  ∃ lines,
    Display.render k self show_ships ships = Ok lines ∧
    length lines = S (Z.to_nat (Grid.grid_size self)).
Proof.
  intros Hn Htotal. unfold Display.render.
  destruct (mapM_result_Ok (Display.render_row k self show_ships ships)
              (range (Grid.grid_size self))) as (rows & -> & Hlen).
  - intros r Hr%elem_of_range. apply render_row_Ok; [lia|lia|done].
  - eexists. split; [done|]. cbn. rewrite Hlen. unfold range.
    by rewrite length_seqZ.
Qed.

Lemma render_fits_alphabet_witness :
  ∃ lines,
    Display.render demo_colors (Grid.init 3) true
      (Some [Ship.init 2 [(0, 0); (0, 1)]]) = Ok lines ∧
    length lines = S (Z.to_nat (Grid.grid_size (Grid.init 3))).
Proof.
  apply (render_fits_alphabet demo_colors (Grid.init 3) true
           (Some [Ship.init 2 [(0, 0); (0, 1)]])).
  - cbn. lia.
  - intros p Hp. rewrite Grid_init_lookup. by rewrite decide_True.
Defined.

Lemma render_beyond_alphabet_core
  (k : colors) (self : Grid.t) (show_ships : bool)
  (ships : option (list Ship.t)) :
  26 < Grid.grid_size self →
  (∀ lines, Display.render k self show_ships ships ≠ Ok lines) ∧
  ((∀ p, in_bounds (Grid.grid_size self) p →
         is_Some (Grid.cells self !! p)) →
   Display.render k self show_ships ships = Raise IndexError).
Proof.
  intros Hn.
  assert (Hrow : Display.render_row k self show_ships ships 26 = Raise IndexError)
    by done.
  split.
  - intros lines. unfold Display.render.
    destruct (mapM _ _) as [rows|e] eqn:E; [|done].
    destruct (mapM_result_Ok_inv _ _ _ E 26) as [line Hline].
    { apply elem_of_range. lia. }
    by rewrite Hrow in Hline.
  - intros Htotal. unfold Display.render, range.
    replace (Grid.grid_size self) with (26 + (Grid.grid_size self - 26)) at 1
      by lia.
    rewrite seqZ_app by lia.
    rewrite (seqZ_cons (0 + 26)) by lia.
    rewrite mapM_result_Raise with (e := IndexError); [done| |done].
    intros r Hr%elem_of_seqZ. apply render_row_Ok; [lia|lia|done].
Qed.

(** X21.  A board of more than 26 rows cannot be rendered: the row letters run
    out, and when the dictionary has every cell of the board the call
    stops with that IndexError. *)
Theorem render_beyond_alphabet
  (k : colors) (self : Grid.t) (show_ships : bool)
  (ships : option (list Ship.t)) :
  26 < Grid.grid_size self →
  (∀ lines, Display.render k self show_ships ships ≠ Ok lines) ∧
  ((∀ p, in_bounds (Grid.grid_size self) p →
         is_Some (Grid.cells self !! p)) →
   Display.render k self show_ships ships = Raise IndexError).
Proof. apply render_beyond_alphabet_core. Qed.

Lemma render_beyond_alphabet_witness :
  (∀ lines, Display.render demo_colors (Grid.init 27) false None ≠ Ok lines) ∧
  Display.render demo_colors (Grid.init 27) false None = Raise IndexError.
Proof.
  destruct (render_beyond_alphabet demo_colors (Grid.init 27) false None)
    as [Hnever Hindex].
  - cbn. lia.
  - split; [exact Hnever|]. apply Hindex. intros p Hp.
    rewrite Grid_init_lookup. by rewrite decide_True.
Defined.

(** ** Placement typed in *)

Lemma place_typed_Return py k (self : Player.t) size :
  ∀ (bound : nat) lines occupied self' occupied' lines',
  (length lines ≤ bound)%nat →
  Human.place_typed py k self occupied size lines
    = Return (self', occupied', lines') →
  ∃ r c orient cells,
    in_bounds (Grid.grid_size (Player.grid self)) (r, c) ∧
    Player._calc_positions self (r, c) size orient = Some cells ∧
    cells ≠ [] ∧
    Forall (λ q, q ∉ occupied) cells ∧
    self' = Player.mk (Player.grid self)
              (Player.ships self ++ [Ship.init size cells]) ∧
    occupied' = occupied ∪ list_to_set cells ∧
    lines' `suffix_of` lines.
Proof.
  induction bound as [|bound IH]; intros lines occupied self' occupied' lines' Hlen.
  - destruct lines; [|cbn in Hlen; lia]. cbn.
    by destruct (Display.render _ _ _ _).
  - destruct lines as [|line1 [|line2 lines]].
    + cbn. by destruct (Display.render _ _ _ _).
    + cbn. by destruct (Display.render _ _ _ _).
    + cbn [Human.place_typed].
      destruct (Display.render k (Player.grid self) true
                  (Some (Player.ships self))) as [shown|e] eqn:Eshow; [|done].
      assert (Hrec : ∀ self' occupied' lines',
        Human.place_typed py k self occupied size lines
          = Return (self', occupied', lines') →
        ∃ r c orient cells,
          in_bounds (Grid.grid_size (Player.grid self)) (r, c) ∧
          Player._calc_positions self (r, c) size orient = Some cells ∧
          cells ≠ [] ∧
          Forall (λ q, q ∉ occupied) cells ∧
          self' = Player.mk (Player.grid self)
                    (Player.ships self ++ [Ship.init size cells]) ∧
          occupied' = occupied ∪ list_to_set cells ∧
          lines' `suffix_of` line1 :: line2 :: lines).
      { intros s1 o1 l1 H. apply IH in H; [|cbn in Hlen; lia].
        destruct H as (r & c & orient & cells & ? & ? & ? & ? & ? & ? & Hsuf).
        exists r, c, orient, cells. do 6 (split; [assumption|]).
        by do 2 apply suffix_cons_r. }
      destruct (Human._parse py self (upper py (strip py line1)))
        as [[r c]|] eqn:Eparse; [|apply Hrec].
      case_decide as Horient; [|apply Hrec].
      destruct (Player._calc_positions self (r, c) size
                  (lower py (strip py line2))) as [cells|] eqn:Epos;
        (case_decide as Hacc; [|apply Hrec]); [|done].
      destruct cells as [|q cells]; [done|].
      intros [= <- <- <-].
      exists r, c, (lower py (strip py line2)), (q :: cells).
      split; [by apply parse_on_board_core in Eparse as [? _]|].
      split; [done|]. split; [done|]. split; [exact Hacc|].
      split; [done|]. split; [done|].
      by do 2 apply suffix_cons_r.
Qed.

Lemma place_typed_rendered py k (self : Player.t) size lines occupied res :
  Human.place_typed py k self occupied size lines = Return res →
  ∃ shown, Display.render k (Player.grid self) true
             (Some (Player.ships self)) = Ok shown.
Proof.
  destruct lines; cbn [Human.place_typed];
    destruct (Display.render _ _ _ _); by eauto.
Qed.

Lemma typed_fleet_Return py k n sizes : ∀ self occupied lines p rest,
  Grid.grid_size (Player.grid self) = n →
  fleet_wf n (Player.ships self) →
  Forall (λ s, Ship.hits s = ∅ ∧ 1 ≤ Ship.size s ≤ n) (Player.ships self) →
  occupied = list_to_set (Player.ships self ≫= Ship.positions) →
  Human.place_fleet py k self occupied sizes lines = Return (p, rest) →
  Player.grid p = Player.grid self ∧
  (∃ new, Player.ships p = Player.ships self ++ new ∧
          Ship.size <$> new = sizes) ∧
  fleet_wf n (Player.ships p) ∧
  Forall (λ s, Ship.hits s = ∅ ∧ 1 ≤ Ship.size s ≤ n) (Player.ships p) ∧
  rest `suffix_of` lines ∧
  (sizes ≠ [] → n ≤ 26).
Proof.
  induction sizes as [|size sizes IH];
    intros self occupied lines p rest Hn Hwf Hfresh Hocc.
  - cbn. intros [= <- <-]. split; [done|]. split.
    { exists []. by rewrite (right_id_L [] (++)). }
    done.
  - cbn [Human.place_fleet]. unfold mbind, outcome_bind.
    destruct (Human.place_typed py k self occupied size lines)
      as [[[self' occupied'] lines']|e] eqn:E; [|done].
    destruct (place_typed_rendered _ _ _ _ _ _ _ E) as (shown & Hshown).
    apply (place_typed_Return _ _ _ _ (length lines)) in E
      as (r & c & orient & cells & Hstart & Hpos & Hne & Hfree & -> & ->
          & Hsuf); [|done].
    pose proof (calc_positions_footprint_core _ _ _ _ _ _ Hpos) as (Hlen & Hnd & Hb).
    rewrite Hn in Hstart, Hb. specialize (Hb Hstart).
    assert (Hsize : 1 ≤ size ≤ n).
    { destruct cells as [|q cells]; [done|]. cbn in Hlen.
      destruct Hstart as [Hr Hc]. cbn in Hr, Hc.
      apply calc_positions_Some in Hpos as [(_ & ? & _)|(_ & ? & _)]; lia. }
    assert (Hfits : n ≤ 26).
    { destruct (decide (n ≤ 26)) as [|Hbig]; [done|].
      destruct (render_beyond_alphabet_core k (Player.grid self) true
                  (Some (Player.ships self))) as [Hno _]; [lia|].
      by apply Hno in Hshown. }
    intros H.
    apply IH in H as (Hg & (new & Hnew & Hsz) & Hwf' & Hfresh' & Hsuf' & _).
    + cbn in Hg, Hnew. split; [done|]. split.
      { exists (Ship.init size cells :: new). split.
        - by rewrite Hnew, <- (assoc_L (++)).
        - cbn. by rewrite Hsz. }
      split; [done|]. split; [done|]. split; [by etrans|done].
    + done.
    + cbn. apply fleet_wf_snoc; [done|done|lia|done|by subst occupied].
    + cbn. apply Forall_app. split; [done|]. by constructor.
    + cbn. subst occupied. rewrite bind_app, list_to_set_app_L. cbn.
      by rewrite (right_id_L [] (++)).
Qed.

Lemma typed_placement_valid_core
  (py : builtins) (k : colors) (n : Z) (sizes : list Z)
  (lines : list string) (p : Player.t) (rest : list string) :
  Human.init py k n sizes lines = Return (p, rest) →
  Player.grid p = Grid.init n ∧
  Ship.size <$> Player.ships p = sizes ∧
  fleet_wf n (Player.ships p) ∧
  Forall (λ s, Ship.hits s = ∅ ∧ 1 ≤ Ship.size s ≤ n) (Player.ships p) ∧
  rest `suffix_of` lines ∧
  (sizes ≠ [] → n ≤ 26).
Proof.
  intros H. unfold Human.init in H.
  apply typed_fleet_Return with (n := n) in H
    as (Hg & (new & Hnew & Hsz) & Hwf & Hfresh & Hsuf & Hfits); try done.
  - cbn in Hg, Hnew. split; [done|]. split; [by rewrite Hnew|done].
  - split; [constructor|]. split; [constructor|]. cbn. constructor.
Qed.

(** X22.  A fleet that [Player(grid_size, ship_sizes)] returns from the lines
    typed in: the grid is the fresh grid of the requested size; there is
    one ship per requested length, in order and of that length, each
    between 1 and the size of the board; every ship has as many pairwise
    distinct cells as it is long, all on the board, and nothing hit; no two
    ships share a cell; what is left of the input is the end of the input
    given; and a ship was only placed if the board has at most 26 rows. *)
Theorem typed_placement_valid
  (py : builtins) (k : colors) (n : Z) (sizes : list Z)
  (lines : list string) (p : Player.t) (rest : list string) :
  Human.init py k n sizes lines = Return (p, rest) →
  Player.grid p = Grid.init n ∧
  Ship.size <$> Player.ships p = sizes ∧
  fleet_wf n (Player.ships p) ∧
  Forall (λ s, Ship.hits s = ∅ ∧ 1 ≤ Ship.size s ≤ n) (Player.ships p) ∧
  rest `suffix_of` lines ∧
  (sizes ≠ [] → n ≤ 26).
Proof. apply typed_placement_valid_core. Qed.

Lemma typed_placement_valid_witness :
  match Human.init demo_py demo_colors 3 [2; 1]
          ["D1"; "h"; "A1"; "x"; "A3"; "h"; "A1"; "v"; "A1"; "h"; "C3"; "h";
           "more"] with
  | Return (p, rest) =>
      Player.grid p = Grid.init 3 ∧
      Ship.size <$> Player.ships p = [2; 1] ∧
      fleet_wf 3 (Player.ships p) ∧
      Forall (λ s, Ship.hits s = ∅ ∧ 1 ≤ Ship.size s ≤ 3) (Player.ships p) ∧
      rest `suffix_of`
        ["D1"; "h"; "A1"; "x"; "A3"; "h"; "A1"; "v"; "A1"; "h"; "C3"; "h";
         "more"] ∧
      ([2; 1] ≠ [] → 3 ≤ 26)
  | Abort _ => False
  end.
Proof.
  destruct (Human.init demo_py demo_colors 3 [2; 1] _) as [[p rest]|e] eqn:E.
  - exact (typed_placement_valid demo_py demo_colors 3 [2; 1] _ p rest E).
  - vm_compute in E. discriminate E.
Defined.

(** ** The invariant of a game *)

Lemma any_check_hit_spec (ships : list Ship.t) (target : coord) :
  let res := any_check_hit ships target in
  Forall2 (λ s s',
    Ship.size s' = Ship.size s ∧ Ship.positions s' = Ship.positions s ∧
    (Ship.hits s' = Ship.hits s ∨
     (res.1 = true ∧ target ∈ Ship.positions s ∧
      Ship.hits s' = {[target]} ∪ Ship.hits s))) ships res.2 ∧
  (res.1 = true → ∃ s', s' ∈ res.2 ∧ target ∈ Ship.hits s').
Proof.
  induction ships as [|s ships IH]; cbn.
  - split; [constructor|done].
  - unfold Ship.check_hit. case_decide as Hin; cbn.
    + split.
      * constructor.
        -- cbn. split; [done|]. split; [done|]. by right.
        -- apply Forall_Forall2_diag, Forall_forall. intros x _.
           split; [done|]. split; [done|]. by left.
      * intros _. eexists. split; [apply list_elem_of_here|]. cbn.
        apply elem_of_union_l. by apply elem_of_singleton.
    + destruct (any_check_hit ships target) as [h rest]. cbn in *.
      destruct IH as [IH1 IH2]. split.
      * constructor; [|done]. split; [done|]. split; [done|]. by left.
      * intros Hh. destruct (IH2 Hh) as (s' & ? & ?). exists s'.
        split; [by apply list_elem_of_further|done].
Qed.

Lemma Forall2_elem_l {A B} (R : A → B → Prop) l k x :
  Forall2 R l k → x ∈ l → ∃ y, y ∈ k ∧ R x y.
Proof.
  induction 1 as [|a b l k Hab _ IH]; intros Hx.
  - by apply not_elem_of_nil in Hx.
  - apply elem_of_cons in Hx as [->|Hx].
    + exists b. split; [apply list_elem_of_here|done].
    + destruct (IH Hx) as (y & ? & ?). exists y.
      split; [by apply list_elem_of_further|done].
Qed.

Lemma Forall2_elem_r {A B} (R : A → B → Prop) l k y :
  Forall2 R l k → y ∈ k → ∃ x, x ∈ l ∧ R x y.
Proof.
  induction 1 as [|a b l k Hab _ IH]; intros Hy.
  - by apply not_elem_of_nil in Hy.
  - apply elem_of_cons in Hy as [->|Hy].
    + exists a. split; [apply list_elem_of_here|done].
    + destruct (IH Hy) as (x & ? & ?). exists x.
      split; [by apply list_elem_of_further|done].
Qed.

Lemma Forall2_positions (R : Ship.t → Ship.t → Prop) l k :
  Forall2 R l k →
  (∀ s s', R s s' → Ship.positions s' = Ship.positions s) →
  k ≫= Ship.positions = l ≫= Ship.positions.
Proof.
  intros H Hpos. induction H as [|a b l k Hab _ IH]; [done|].
  by rewrite !bind_cons, IH, (Hpos _ _ Hab).
Qed.

Lemma side_attack (n : Z) (side : Player.t) (tgt : coord) :
  side_wf n side →
  Grid.cells (Player.grid side) !! tgt = Some " "%string →
  side_wf n
    (Player.mk
       (Grid.update (Player.grid side) tgt
          (any_check_hit (Player.ships side) tgt).1)
       (any_check_hit (Player.ships side) tgt).2).
Proof.
  intros ((Hwf & Hb & Hnd) & Hdom & HX & HO & Hval) Hblank.
  pose proof (any_check_hit_spec (Player.ships side) tgt) as [HF Hhit].
  pose proof (any_check_hit_true (Player.ships side) tgt) as Htrue.
  destruct (any_check_hit (Player.ships side) tgt) as [hit ships'].
  cbn [fst snd] in *.
  assert (Hl : ∀ s, s ∈ Player.ships side → ∃ s', s' ∈ ships' ∧
    Ship.size s' = Ship.size s ∧ Ship.positions s' = Ship.positions s ∧
    (Ship.hits s' = Ship.hits s ∨
     (hit = true ∧ tgt ∈ Ship.positions s ∧
      Ship.hits s' = {[tgt]} ∪ Ship.hits s)))
    by (intros s Hs; by apply (Forall2_elem_l _ _ _ _ HF)).
  assert (Hr : ∀ s', s' ∈ ships' → ∃ s, s ∈ Player.ships side ∧
    Ship.size s' = Ship.size s ∧ Ship.positions s' = Ship.positions s ∧
    (Ship.hits s' = Ship.hits s ∨
     (hit = true ∧ tgt ∈ Ship.positions s ∧
      Ship.hits s' = {[tgt]} ∪ Ship.hits s)))
    by (intros s' Hs'; by apply (Forall2_elem_r _ _ _ _ HF)).
  rewrite Forall_forall in Hwf, Hb.
  split; [|split; [|split; [|split]]]; cbn [Player.grid Player.ships].
  - split; [|split].
    + apply Forall_forall. intros s' Hs'.
      destruct (Hr s' Hs') as (s & Hs & Hsz & Hpos & Hh).
      destruct (Hwf s Hs) as (Hn1 & Hn2 & Hn3).
      split; [by rewrite Hpos|]. split; [by rewrite Hpos, Hsz|].
      intros p. rewrite Hpos.
      destruct Hh as [->|(_ & Htp & ->)]; [by auto|].
      intros [->%elem_of_singleton|?]%elem_of_union; auto.
    + apply Forall_forall. intros s' Hs'.
      destruct (Hr s' Hs') as (s & Hs & _ & Hpos & _).
      rewrite Hpos. by apply Hb.
    + rewrite (Forall2_positions _ _ _ HF); [done|]. by intros s s' (_ & ? & _).
  - intros p. cbn. destruct (decide (tgt = p)) as [<-|Hne].
    + rewrite lookup_insert_eq. split; [|eauto]. intros _.
      apply Hdom. by rewrite Hblank.
    + by rewrite lookup_insert_ne.
  - intros p. cbn. destruct (decide (tgt = p)) as [<-|Hne].
    + rewrite lookup_insert_eq. split.
      * destruct hit; [|done]. intros _. by apply Hhit.
      * intros (s' & Hs' & Hp). destruct (Hr s' Hs') as (s & Hs & _ & _ & Hh).
        destruct Hh as [Hh|(-> & _)]; [|done]. rewrite Hh in Hp.
        assert (Hold : Grid.cells (Player.grid side) !! tgt = Some "X"%string)
          by (apply HX; eauto).
        rewrite Hblank in Hold. discriminate Hold.
    + rewrite lookup_insert_ne by done. rewrite HX. split.
      * intros (s & Hs & Hp). destruct (Hl s Hs) as (s' & Hs' & _ & _ & Hh).
        exists s'. split; [done|].
        destruct Hh as [->|(_ & _ & ->)]; [done|]. by apply elem_of_union_r.
      * intros (s' & Hs' & Hp). destruct (Hr s' Hs') as (s & Hs & _ & _ & Hh).
        exists s. split; [done|]. destruct Hh as [Hh|(_ & _ & Hh)];
          rewrite Hh in Hp; [done|].
        apply elem_of_union in Hp as [Hp%elem_of_singleton|Hp]; [|done].
        by subst.
  - intros p. cbn. destruct (decide (tgt = p)) as [<-|Hne].
    + rewrite lookup_insert_eq. destruct hit; [done|]. intros _ s' Hs' Hp.
      destruct (Hr s' Hs') as (s & Hs & _ & Hpos & _). rewrite Hpos in Hp.
      assert (Hcontra : false = true) by (apply Htrue; eauto). done.
    + rewrite lookup_insert_ne by done. intros HOp s' Hs' Hp.
      destruct (Hr s' Hs') as (s & Hs & _ & Hpos & _). rewrite Hpos in Hp.
      by apply (HO p HOp s Hs).
  - intros p v. cbn. destruct (decide (tgt = p)) as [<-|Hne].
    + rewrite lookup_insert_eq. intros [= <-]. destruct hit; auto.
    + rewrite lookup_insert_ne by done. apply Hval.
Qed.

Lemma ai_turn_player (self : Game.t) (g : Random) ctl self' g' :
  Game.ai_turn self g = Ok (ctl, self', g') →
  ∃ c ctrl g1,
    choose_target (Game.pc_ctrl self) g = Ok (c, ctrl, g1) ∧
    Game.computer self' = Game.computer self ∧
    Game.player self' =
      Player.mk
        (Grid.update (Player.grid (Game.player self)) c
           (any_check_hit (Player.ships (Game.player self)) c).1)
        (any_check_hit (Player.ships (Game.player self)) c).2 ∧
    Game.pc_ctrl self' =
      (process_result ctrl c
         (any_check_hit (Player.ships (Game.player self)) c).1 g1).1.
Proof.
  unfold Game.ai_turn, mbind, result_bind.
  destruct (choose_target (Game.pc_ctrl self) g) as [[[c ctrl] g1]|e]; [|done].
  destruct (any_check_hit (Player.ships (Game.player self)) c)
    as [hit ships'] eqn:Ea.
  destruct (process_result ctrl c hit g1) as [ctrl' g2] eqn:Ep.
  intros H. exists c, ctrl, g1. split; [done|].
  rewrite Ea. cbn [fst snd]. rewrite Ep. cbn [fst].
  case_decide; [|done].
  destruct (Player.all_sunk _); injection H as <- <- <-; done.
Qed.

Lemma game_wf_components (n : Z) (a b : Game.t) :
  Game.player b = Game.player a →
  Game.computer b = Game.computer a →
  Game.pc_ctrl b = Game.pc_ctrl a →
  game_wf n a → game_wf n b.
Proof. unfold game_wf. by intros -> -> ->. Qed.

Lemma ai_turn_keeps_wf (n : Z) (self : Game.t) (g : Random) ctl self' g' :
  game_wf n self →
  Game.ai_turn self g = Ok (ctl, self', g') →
  game_wf n self' ∧ keeps_marks self self'.
Proof.
  intros (Hp & Hc & Hn & Hb & Hshots) H.
  apply ai_turn_player in H as (c & ctrl & g1 & Ec & Hcomp & Hplayer & Hctrl).
  pose proof (choose_target_Ok _ _ _ _ _ Hb Ec) as (Hcb & Hcn & Hg & Hs & _).
  pose proof (bounded_choose _ _ _ _ _ Hb Ec) as Hb1.
  assert (Hblank : Grid.cells (Player.grid (Game.player self)) !! c
                   = Some " "%string).
  { destruct Hp as (_ & Hdom & _). rewrite Hn in Hcb.
    destruct (proj2 (Hdom c) Hcb) as [v Hv]. rewrite Hv. f_equal.
    destruct (decide (v = " "%string)) as [|Hne]; [done|].
    exfalso. apply Hcn, Hshots. eauto. }
  split.
  - split; [|split; [|split; [|split]]].
    + rewrite Hplayer. by apply side_attack.
    + by rewrite Hcomp.
    + rewrite Hctrl, process_result_grid_size. congruence.
    + rewrite Hctrl. by apply bounded_process.
    + intros p. rewrite Hctrl, process_result_shots, Hs, Hplayer. cbn.
      destruct (decide (c = p)) as [<-|Hne].
      * rewrite lookup_insert_eq. split.
        -- intros _. eexists. split; [done|]. by destruct (any_check_hit _ _).1.
        -- intros _. apply elem_of_union_l. by apply elem_of_singleton.
      * rewrite lookup_insert_ne by done. rewrite <- Hshots.
        rewrite elem_of_union, elem_of_singleton. split; [|by right].
        intros [?|?]; [congruence|done].
  - intros side [->| ->] p v Hv Hne.
    + rewrite Hplayer. cbn. rewrite lookup_insert_ne; [done|].
      intros <-. rewrite Hblank in Hv. by injection Hv as <-.
    + by rewrite Hcomp.
Qed.

Lemma round_keeps_wf (n : Z) (game : Game.t) (inp : Game.input) (g : Random)
  ctl game' g' :
  game_wf n game →
  Game.round game inp g = Ok (ctl, game', g') →
  game_wf n game' ∧ keeps_marks game game'.
Proof.
  intros Hwf H.
  apply round_Ok in H
    as [(Hc & Hp & Hs)|(move & tgt & -> & Hblank & Hc & Hai)].
  - split; [by apply (game_wf_components n game)|].
    intros side [->| ->] p v Hv _; by rewrite ?Hp, ?Hc.
  - assert (Hside : side_wf n (Game.computer game'))
      by (rewrite Hc; apply side_attack; [apply Hwf|done]).
    assert (Hmarks : ∀ p v,
      Grid.cells (Player.grid (Game.computer game)) !! p = Some v →
      v ≠ " "%string →
      Grid.cells (Player.grid (Game.computer game')) !! p = Some v).
    { intros p v Hv Hne. rewrite Hc. cbn. rewrite lookup_insert_ne; [done|].
      intros <-. rewrite Hblank in Hv. by injection Hv as <-. }
    destruct Hai as [[Hp Hs]|(attacked & Hp & Hs & Hca & Hai)].
    + split.
      * destruct Hwf as (? & ? & ? & ? & ?). unfold game_wf.
        by rewrite Hp, Hs.
      * intros side [->| ->] p v Hv Hne; [by rewrite Hp|by apply Hmarks].
    + assert (Hwfa : game_wf n attacked).
      { destruct Hwf as (? & ? & ? & ? & ?). unfold game_wf.
        by rewrite Hp, Hs, Hca. }
      destruct (ai_turn_keeps_wf _ _ _ _ _ _ Hwfa Hai) as [Hwf' Hk].
      split; [done|].
      intros side [->| ->] p v Hv Hne.
      * apply (Hk Game.player); [by left| |done]. by rewrite Hp.
      * by apply Hmarks.
Qed.

Lemma fresh_side_wf (n : Z) (ships : list Ship.t) :
  fleet_wf n ships → Forall (λ s, Ship.hits s = ∅) ships →
  side_wf n (Player.mk (Grid.init n) ships).
Proof.
  intros Hwf Hfresh. rewrite Forall_forall in Hfresh.
  split; [done|]. cbn [Player.grid Player.ships].
  split; [|split; [|split]].
  - intros p. rewrite Grid_init_lookup. case_decide; [by eauto|].
    split; [by intros [? ?]|done].
  - intros p. rewrite Grid_init_lookup. split.
    + by case_decide.
    + intros (s & Hs & Hp). rewrite (Hfresh s Hs) in Hp.
      by apply not_elem_of_empty in Hp.
  - intros p. rewrite Grid_init_lookup. by case_decide.
  - intros p v. rewrite Grid_init_lookup. case_decide; [|done].
    intros [= <-]. by left.
Qed.

Lemma new_game_wf (d : difficulty) (n : Z) (own enemy : list Ship.t) :
  fleet_wf n own → Forall (λ s, Ship.hits s = ∅) own →
  fleet_wf n enemy → Forall (λ s, Ship.hits s = ∅) enemy →
  game_wf n (new_game d n own enemy).
Proof.
  intros Ho Hof He Hef.
  split; [by apply fresh_side_wf|]. split; [by apply fresh_side_wf|].
  cbn [new_game Game.pc_ctrl Game.player Player.grid].
  split; [by destruct d|]. split; [apply bounded_new|].
  intros p. rewrite Grid_init_lookup. split.
  - destruct d; cbn; by intros ?%not_elem_of_empty.
  - intros (v & Hv & Hne). case_decide; [|done]. by injection Hv as <-.
Qed.

(** X23.  A round of [play] keeps the invariant of the game: on both sides the
    fleet stays well formed, the board has exactly the cells of the grid,
    a cell is ['X'] exactly where a ship of that side was hit and ['O']
    only where no ship lies, and the strategy remembers exactly the cells
    of the human's board that are marked.  No mark is ever changed or
    removed. *)
Theorem round_keeps_invariant
  (n : Z) (game : Game.t) (inp : Game.input) (g : Random)
  (ctl : Game.control) (game' : Game.t) (g' : Random) :
  game_wf n game →
  Game.round game inp g = Ok (ctl, game', g') →
  game_wf n game' ∧ keeps_marks game game'.
Proof. apply round_keeps_wf. Qed.

Lemma demo_game_wf : game_wf 2 demo_game.
Proof.
  apply new_game_wf.
  - split; [|split].
    + constructor; [|constructor]. split; [|split]; cbn.
      * apply (bool_decide_unpack _). by vm_compute.
      * reflexivity.
      * by intros p ?%not_elem_of_empty.
    + constructor; [|constructor]. cbn. constructor; [|constructor].
      unfold in_bounds. cbn. lia.
    + cbn. apply (bool_decide_unpack _). by vm_compute.
  - by repeat constructor.
  - split; [|split].
    + constructor; [|constructor]. split; [|split]; cbn.
      * apply (bool_decide_unpack _). by vm_compute.
      * reflexivity.
      * by intros p ?%not_elem_of_empty.
    + constructor; [|constructor]. cbn. constructor; [|constructor].
      unfold in_bounds. cbn. lia.
    + cbn. apply (bool_decide_unpack _). by vm_compute.
  - by repeat constructor.
Qed.

Lemma round_keeps_invariant_witness :
  match Game.round demo_game (Game.Move "A1" (Some (0, 0))) seed0 with
  | Ok (_, game', _) => game_wf 2 game' ∧ keeps_marks demo_game game'
  | Raise _ => False
  end.
Proof.
  destruct (Game.round demo_game (Game.Move "A1" (Some (0, 0))) seed0)
    as [[[ctl game'] g']|e] eqn:E.
  - exact (round_keeps_invariant 2 demo_game _ seed0 ctl game' g'
             demo_game_wf E).
  - vm_compute in E. discriminate E.
Defined.

Lemma keeps_marks_refl (a : Game.t) : keeps_marks a a.
Proof. by intros side _ p v Hv _. Qed.

Lemma keeps_marks_trans (a b c : Game.t) :
  keeps_marks a b → keeps_marks b c → keeps_marks a c.
Proof.
  intros Hab Hbc side Hside p v Hv Hne.
  apply (Hbc side Hside); [|done]. by apply (Hab side Hside).
Qed.

Lemma shown_one (n : Z) (game : Game.t) :
  game_wf n game →
  Forall (game_wf n) [game] ∧
  Forall (keeps_marks game) [game] ∧
  StronglySorted keeps_marks [game].
Proof.
  intros Hwf. split; [by apply Forall_singleton|].
  split; [apply Forall_singleton, keeps_marks_refl|].
  apply SSorted_cons; [apply SSorted_nil|apply Forall_nil_2].
Qed.

Lemma shown_none (n : Z) (game : Game.t) :
  Forall (game_wf n) [] ∧
  Forall (keeps_marks game) [] ∧
  StronglySorted keeps_marks [].
Proof.
  split; [apply Forall_nil_2|]. split; [apply Forall_nil_2|apply SSorted_nil].
Qed.

Lemma play_shown py k (n : Z) (lines : list string) : ∀ (game : Game.t) g,
  game_wf n game →
  Forall (game_wf n) (Session.play py k game lines g).1 ∧
  Forall (keeps_marks game) (Session.play py k game lines g).1 ∧
  StronglySorted keeps_marks (Session.play py k game lines g).1.
Proof.
  induction lines as [|line lines IH]; intros game g Hwf.
  - cbn. destruct (Session.render_boards k game); cbn;
      [by apply shown_one|apply shown_none].
  - cbn [Session.play].
    destruct (Session.render_boards k game) as [boards|e];
      [|apply shown_none].
    case_decide; [by apply shown_one|].
    destruct (Game.round game _ g) as [[[[] game'] g']|e] eqn:E;
      [| |by apply shown_one].
    + destruct (round_keeps_wf _ _ _ _ _ _ _ Hwf E) as [Hwf' Hk].
      specialize (IH game' g' Hwf').
      destruct (Session.play py k game' lines g') as [shown e].
      cbn [fst] in *. destruct IH as (IH1 & IH2 & IH3).
      assert (Hall : Forall (keeps_marks game) shown).
      { eapply Forall_impl; [exact IH2|]. intros x Hx.
        by apply (keeps_marks_trans _ game'). }
      split; [by apply Forall_cons|]. split.
      * apply Forall_cons. split; [apply keeps_marks_refl|done].
      * by apply SSorted_cons.
    + destruct (round_keeps_wf _ _ _ _ _ _ _ Hwf E) as [Hwf' Hk].
      destruct (Session.render_boards k game'); [|by apply shown_one].
      cbn [fst]. destruct (shown_one n game' Hwf') as (H1 & H2 & H3).
      split; [by apply Forall_cons|]. split.
      * apply Forall_cons. split; [apply keeps_marks_refl|].
        by apply Forall_singleton.
      * apply SSorted_cons; [done|]. by apply Forall_singleton.
Qed.

(** X24.  Through a whole game, however it ends: every state that [play] puts
    on the screen satisfies the invariant of the game, and every mark
    shown at some point is shown unchanged at every later point. *)
Theorem play_keeps_invariant
  (py : builtins) (k : colors) (n : Z) (game : Game.t)
  (lines : list string) (g : Random) :
  game_wf n game →
  Forall (game_wf n) (Session.play py k game lines g).1 ∧
  StronglySorted keeps_marks (Session.play py k game lines g).1.
Proof.
  intros Hwf. destruct (play_shown py k n lines game g Hwf) as (? & _ & ?).
  done.
Qed.

Lemma play_keeps_invariant_witness :
  Forall (game_wf 2)
    (Session.play demo_py demo_colors demo_game ["B1"; "zz"; "B1"; "A2"]
       seed0).1 ∧
  StronglySorted keeps_marks
    (Session.play demo_py demo_colors demo_game ["B1"; "zz"; "B1"; "A2"]
       seed0).1.
Proof.
  exact (play_keeps_invariant demo_py demo_colors 2 demo_game
           ["B1"; "zz"; "B1"; "A2"] seed0 demo_game_wf).
Defined.

Lemma NoDup_bind_owner {A B} (f : A → list B) (l : list A) (x y : A) (p : B) :
  NoDup (l ≫= f) → x ∈ l → y ∈ l → p ∈ f x → p ∈ f y → x = y.
Proof.
  induction l as [|a l IH]; intros Hnd Hx Hy Hpx Hpy.
  - by apply not_elem_of_nil in Hx.
  - rewrite bind_cons in Hnd. apply NoDup_app in Hnd as (_ & Hdisj & Hnd).
    assert (Hrest : ∀ z, z ∈ l → p ∈ f z → p ∈ l ≫= f).
    { intros z Hz Hpz. apply list_elem_of_bind. eauto. }
    apply elem_of_cons in Hx as [->|Hx]; apply elem_of_cons in Hy as [->|Hy].
    + done.
    + exfalso. apply (Hdisj p Hpx). by apply (Hrest y).
    + exfalso. apply (Hdisj p Hpy). by apply (Hrest x).
    + by apply IH.
Qed.

(** X25.  Under the invariant the board shows whether a fleet is sunk:
    [all_sunk] holds exactly when every cell of every ship of that side is
    marked ['X'] on the side's grid. *)
Theorem all_sunk_iff_all_marked (n : Z) (side : Player.t) :
  side_wf n side →
  Player.all_sunk side = true ↔
  ∀ s p, s ∈ Player.ships side → p ∈ Ship.positions s →
         Grid.cells (Player.grid side) !! p = Some "X"%string.
Proof.
  intros ((Hwf & _ & Hnd) & _ & HX & _). rewrite Forall_forall in Hwf.
  rewrite all_sunk_forall. split.
  - intros Hall s p Hs Hp. apply HX. exists s. split; [done|].
    by apply (proj1 (is_sunk_iff_all_positions_hit_core s (Hwf s Hs))); auto.
  - intros Hall s Hs.
    apply (proj1 (is_sunk_iff_all_positions_hit_core s (Hwf s Hs))).
    intros p Hp. destruct (proj1 (HX p) (Hall s p Hs Hp)) as (s' & Hs' & Hp').
    destruct (Hwf s' Hs') as (_ & _ & Hsub).
    by rewrite (NoDup_bind_owner Ship.positions _ s s' p Hnd Hs Hs' Hp
                  (Hsub p Hp')).
Qed.

Lemma all_sunk_iff_all_marked_witness :
  Player.all_sunk (Game.computer demo_game) = true ↔
  ∀ s p, s ∈ Player.ships (Game.computer demo_game) →
         p ∈ Ship.positions s →
         Grid.cells (Player.grid (Game.computer demo_game)) !! p
         = Some "X"%string.
Proof.
  refine (all_sunk_iff_all_marked 2 (Game.computer demo_game) _).
  apply demo_game_wf.
Defined.

(** ** Construction of a game *)

Lemma select_Return py (lines : list string) preset rest :
  BoardPreset.select py lines = Return (preset, rest) →
  preset ∈ [BoardPreset.mk 5 [2; 2; 3]; BoardPreset.mk 6 [2; 2; 2; 3];
            BoardPreset.mk 8 [2; 2; 2; 3; 4]] ∧
  rest `suffix_of` lines.
Proof.
  revert preset rest.
  induction lines as [|line lines IH]; intros preset rest; [done|].
  cbn [BoardPreset.select]. case_decide; [done|].
  destruct (BoardPreset._presets !! lower py (strip py line)) as [p|] eqn:E.
  - destruct p as [gs ss]. cbn. intros [= <- <-].
    split; [|by apply suffix_cons_r].
    apply elem_of_list_to_map_2 in E.
    apply elem_of_cons in E as [[= _ -> ->]|E]; [apply list_elem_of_here|].
    apply elem_of_cons in E as [[= _ -> ->]|E];
      [apply list_elem_of_further, list_elem_of_here|].
    apply list_elem_of_singleton in E as [= _ -> ->].
    do 2 apply list_elem_of_further. apply list_elem_of_here.
  - intros Hsel. apply IH in Hsel as [? ?]. split; [done|].
    by apply suffix_cons_r.
Qed.

Lemma ask_difficulty_Return py (lines : list string) d rest :
  Session.ask_difficulty py lines = Return (d, rest) →
  rest `suffix_of` lines.
Proof.
  revert d rest.
  induction lines as [|line lines IH]; intros d rest; [done|].
  cbn [Session.ask_difficulty]. destruct (Session.strategies !! _).
  - intros [= <- <-]. by apply suffix_cons_r.
  - intros H. by apply suffix_cons_r, (IH d).
Qed.

(** X26.  A game that [Game()] returns is played on a board of size 5, 6 or 8;
    both fleets have the ship lengths of the chosen preset and satisfy the
    fleet invariant, nothing is hit and both boards are blank, the
    strategy is fresh, no report is pending: the invariant of the game
    holds from the start.  What is left of the input is the end of the
    input given. *)
Theorem game_init_valid
  (fuel : nat) (py : builtins) (k : colors) (lines : list string)
  (g : Random) (game : Game.t) (rest : list string) (g' : Random) :
  Session.init fuel py k lines g = Some (Return (game, rest, g')) →
  ∃ d preset,
    preset ∈ [BoardPreset.mk 5 [2; 2; 3]; BoardPreset.mk 6 [2; 2; 2; 3];
              BoardPreset.mk 8 [2; 2; 2; 3; 4]] ∧
    game = new_game d (BoardPreset.grid_size preset)
             (Player.ships (Game.player game))
             (Player.ships (Game.computer game)) ∧
    Ship.size <$> Player.ships (Game.player game)
      = BoardPreset.ship_sizes preset ∧
    Ship.size <$> Player.ships (Game.computer game)
      = BoardPreset.ship_sizes preset ∧
    game_wf (BoardPreset.grid_size preset) game ∧
    rest `suffix_of` lines.
Proof.
  unfold Session.init.
  destruct (Session.ask_difficulty py lines) as [[d lines1]|e] eqn:Ed; [|done].
  destruct (BoardPreset.select py lines1) as [[preset lines2]|e] eqn:Es;
    [|done].
  destruct (Human.init py k _ _ lines2) as [[player lines3]|e] eqn:Eh; [|done].
  destruct (Placement.random_placement fuel _ _ g)
    as [[[computer g1]|e]|] eqn:Er; [|done|done].
  intros [= <- <- <-].
  apply ask_difficulty_Return in Ed. apply select_Return in Es as [Hpre Hs].
  apply typed_placement_valid_core in Eh as (Hg & Hsz & Hwf & Hfresh & Hsuf & _).
  apply random_placement_valid_core in Er as (Hg' & Hsz' & Hwf' & Hfresh').
  exists d, preset. cbn [Game.player Game.computer].
  destruct player as [pgrid pships], computer as [cgrid cships].
  cbn in Hg, Hg', Hsz, Hsz', Hwf, Hwf', Hfresh, Hfresh' |- *. subst pgrid cgrid.
  split; [done|]. split; [done|]. split; [done|]. split; [done|]. split.
  - apply new_game_wf; [done| |done|].
    + eapply Forall_impl; [exact Hfresh|]. by intros s [? _].
    + eapply Forall_impl; [exact Hfresh'|]. by intros s [? _].
  - by repeat (etrans; [eassumption|]).
Qed.

Lemma game_init_valid_witness :
  match Session.init 20 demo_py demo_colors
          ["expert"; "easy"; "tiny"; "small"; "A1"; "h"; "B1"; "h"; "C1"; "h";
           "B2"] seed0 with
  | Some (Return (game, rest, _)) =>
      ∃ d preset,
        preset ∈ [BoardPreset.mk 5 [2; 2; 3]; BoardPreset.mk 6 [2; 2; 2; 3];
                  BoardPreset.mk 8 [2; 2; 2; 3; 4]] ∧
        game = new_game d (BoardPreset.grid_size preset)
                 (Player.ships (Game.player game))
                 (Player.ships (Game.computer game)) ∧
        Ship.size <$> Player.ships (Game.player game)
          = BoardPreset.ship_sizes preset ∧
        Ship.size <$> Player.ships (Game.computer game)
          = BoardPreset.ship_sizes preset ∧
        game_wf (BoardPreset.grid_size preset) game ∧
        rest `suffix_of`
          ["expert"; "easy"; "tiny"; "small"; "A1"; "h"; "B1"; "h"; "C1"; "h";
           "B2"]
  | _ => False
  end.
Proof.
  destruct (Session.init 20 demo_py demo_colors _ seed0)
    as [[[[game rest] g']|e]|] eqn:E.
  - exact (game_init_valid 20 demo_py demo_colors _ seed0 game rest g' E).
  - vm_compute in E. discriminate E.
  - vm_compute in E. discriminate E.
Defined.
